(** * Top-k probability codec and tokenizer equivalence

    A shallow embedding of [encode_forward_response_tensor] and
    [decode_forward_response_tensor] from
    [tests/unit_tests/bittensor_tests/utils/test_tokenizer_utils.py].

    Tensors are nested lists.  Tensor entries are modelled as exact real
    numbers: rounding of the tensor's floating-point type is not part of the
    model.  The outcomes that floating-point division and logarithm produce
    outside the reals (infinities, NaN) are kept as explicit values of
    [xreal], so that "the logarithm never sees zero" is a statement about the
    model and not an artefact of [ln] being total.  Where a property turns on
    the binary32 type of the tensors, the conversion of a literal to that
    type and the underflow of a result are added in [Binary32]. *)

From Stdlib Require Import String Ascii.
From Stdlib Require Import Reals List ZArith Lia Lra Bool.
From Stdlib Require Import Permutation Sorted.
Import ListNotations.

Open Scope R_scope.

(** ** Numeric values *)

(** Results of floating-point operations that can leave the reals. *)
Inductive xreal : Type :=
  | Fin (r : R)
  | PInf
  | NInf
  | NaN.

Definition is_finite (x : xreal) : Prop :=
  match x with Fin _ => True | _ => False end.

(** [torch.log]: finite on strictly positive arguments, [-inf] at zero,
    NaN below. *)
Definition xlog (x : xreal) : xreal :=
  match x with
  | Fin r => if Rlt_dec 0 r then Fin (ln r)
             else if Rlt_dec r 0 then NaN else NInf
  | PInf => PInf
  | NInf => NaN
  | NaN => NaN
  end.

(** [torch.exp], used to read a log-space value back as a probability. *)
Definition xexp (x : xreal) : xreal :=
  match x with
  | Fin r => Fin (exp r)
  | PInf => PInf
  | NInf => Fin 0
  | NaN => NaN
  end.

(** Product of a finite factor with a possibly non-finite one, as in
    [logits *= torch.log(remainder_floor)[:, :, None]]. *)
Definition xscale (c : R) (x : xreal) : xreal :=
  match x with
  | Fin r => Fin (c * r)
  | PInf => if Rlt_dec 0 c then PInf else if Rlt_dec c 0 then NInf else NaN
  | NInf => if Rlt_dec 0 c then NInf else if Rlt_dec c 0 then PInf else NaN
  | NaN => NaN
  end.

(** Sum of possibly non-finite values. *)
Definition xadd (x y : xreal) : xreal :=
  match x, y with
  | Fin a, Fin b => Fin (a + b)
  | NaN, _ | _, NaN => NaN
  | PInf, NInf | NInf, PInf => NaN
  | PInf, _ | _, PInf => PInf
  | NInf, _ | _, NInf => NInf
  end.

Definition xsum (l : list xreal) : xreal := fold_right xadd (Fin 0) l.

(** A real tensor entry divided by a Python integer:
    [remainder_pmass / (vocab_size - topk)]. *)
Definition div_int (r : R) (d : Z) : xreal :=
  if (d =? 0)%Z
  then (if Rlt_dec 0 r then PInf else if Rlt_dec r 0 then NInf else NaN)
  else Fin (r / IZR d).

(** [tensor.sum(dim=-1)] on one row. *)
Definition Rsum (l : list R) : R := fold_right Rplus 0 l.

(** [torch.clamp(x, lo, hi)]. *)
Definition clamp (x lo hi : R) : R := Rmin (Rmax x lo) hi.

(** [tensor.long()] on one entry: truncation towards zero. *)
Definition to_long (r : R) : Z :=
  if Rle_dec 0 r then Int_part r else (- Int_part (- r))%Z.

(** ** Python slicing on the last dimension *)

(** [l[:k]] *)
Definition slice_to {A : Type} (k : Z) (l : list A) : list A :=
  if (0 <=? k)%Z then firstn (Z.to_nat k) l
  else firstn (length l - Z.to_nat (- k)) l.

(** [l[k:]] *)
Definition slice_from {A : Type} (k : Z) (l : list A) : list A :=
  if (0 <=? k)%Z then skipn (Z.to_nat k) l
  else skipn (length l - Z.to_nat (- k)) l.

(** ** Outcomes of a call *)

(** The ways a call can raise.  [InvalidK] is the error the design names for
    an unusable [topk]; [IndexOutOfBounds] and [ShapeMismatch] are the two
    that [scatter_] raises. *)
Inductive error : Type :=
  | InvalidK
  | IndexOutOfBounds
  | ShapeMismatch.

Inductive outcome (A : Type) : Type :=
  | Returned (a : A)
  | Raised (e : error).
Arguments Returned {A} a.
Arguments Raised {A} e.

Definition bind {A B : Type} (m : outcome A) (f : A -> outcome B) : outcome B :=
  match m with
  | Returned a => f a
  | Raised e => Raised e
  end.

Notation "x <- m ;; k" := (bind m (fun x => k))
  (at level 61, m at next level, right associativity).

Fixpoint mapM {A B : Type} (f : A -> outcome B) (l : list A) : outcome (list B) :=
  match l with
  | [] => Returned []
  | a :: l' => b <- f a ;; bs <- mapM f l' ;; Returned (b :: bs)
  end.

(** ** Tensors *)

Definition row := list R.
Definition tensor2 (A : Type) := list (list A).
Definition tensor3 (A : Type) := list (list (list A)).

(** An operation applied along the last dimension. *)
Definition on_rows {A B : Type} (f : list A -> B) (t : tensor3 A) : tensor2 B :=
  map (map f) t.

Definition on_rows2 {A B C : Type} (f : list A -> list B -> C)
    (t : tensor3 A) (u : tensor3 B) : tensor2 C :=
  map (fun bu => map (fun ru => f (fst ru) (snd ru)) (combine (fst bu) (snd bu)))
      (combine t u).

(** Concatenation along the last dimension: [torch.cat((t, u), dim=-1)]. *)
Definition cat {A : Type} (t u : tensor3 A) : tensor3 A :=
  on_rows2 (@app A) t u.

(** [torch.softmax(logits, dim=-1)] on one row. *)
Definition softmax (l : row) : row :=
  map (fun x => exp x / Rsum (map exp l)) l.

(** [l[i] = x] for a list index in range. *)
Fixpoint update {A : Type} (i : nat) (x : A) (l : list A) : list A :=
  match l, i with
  | [], _ => []
  | _ :: l', O => x :: l'
  | a :: l', S i' => a :: update i' x l'
  end.

(** Non-increasing rows. *)
Definition descending (l : list R) : Prop :=
  forall i j, (i <= j)%nat -> (j < length l)%nat -> nth j l 0 <= nth i l 0.

(** ** [tensor.sort(dim=-1, descending=True)]

    The library routine is not part of the repository.  It is taken through
    its contract: the returned indices are a permutation of the positions of
    the row, and the returned values, which are the entries at those indices,
    do not increase.  The order among equal entries is left open, as it is
    for the default (unstable) sort. *)
Record Sorter : Type := {
  argsort : row -> list nat;
  argsort_perm : forall l, Permutation (argsort l) (seq 0 (length l));
  argsort_desc : forall l, descending (map (fun i => nth i l 0) (argsort l))
}.

Definition sort_desc (S : Sorter) (l : row) : list R * list nat :=
  (map (fun i => nth i l 0) (argsort S l), argsort S l).

Module TopK.

(** *** Encoder *)

(** One position of [encode_forward_response_tensor]. *)
Definition encode_row (S : Sorter) (topk : Z) (logits : row) : row :=
  let probs := softmax logits in
  let (values, indices) := sort_desc S probs in
  let topk_values := slice_to topk values in
  let topk_indices := slice_to topk indices in
  topk_values ++ map INR topk_indices.

(** [encode_forward_response_tensor(forward_response_tensor, topk)] *)
Definition encode_forward_response_tensor (S : Sorter)
    (forward_response_tensor : tensor3 R) (topk : Z) : outcome (tensor3 R) :=
  let logits := forward_response_tensor in
  let probs := on_rows softmax logits in
  let sorted := on_rows (sort_desc S) probs in
  let values := map (map fst) sorted in
  let indices := map (map snd) sorted in
  let topk_values := on_rows (slice_to topk) values in
  let topk_indices := on_rows (slice_to topk) indices in
  let encoded_probs := cat topk_values (on_rows (map INR) topk_indices) in
  Returned encoded_probs.

(** *** Decoder *)

(** [out.scatter_(-1, index, src)] on one row: [out[index[j]] = src[j]] for
    every [j], in order.  An index outside the row, or more indices than
    source entries, raises. *)
Fixpoint scatter_row (out : list xreal) (index : list Z) (src : list xreal)
    : outcome (list xreal) :=
  match index with
  | [] => Returned out
  | i :: index' =>
      match src with
      | [] => Raised ShapeMismatch
      | s :: src' =>
          if ((0 <=? i)%Z && (i <? Z.of_nat (length out))%Z)%bool
          then scatter_row (update (Z.to_nat i) s out) index' src'
          else Raised IndexOutOfBounds
      end
  end.

Definition scatter_ (out : tensor3 xreal) (index : tensor3 Z)
    (src : tensor3 xreal) : outcome (tensor3 xreal) :=
  mapM (fun b =>
          mapM (fun p => scatter_row (fst (fst p)) (snd (fst p)) (snd p))
               (combine (combine (fst (fst b)) (snd (fst b))) (snd b)))
       (combine (combine out index) src).

(** The uniform floor of one position, before the logarithm. *)
Definition remainder_floor (vocab_size : nat) (topk : Z) (topk_values : row)
    : xreal :=
  let topk_pmass := Rsum topk_values in
  let remainder_pmass := clamp (1 - topk_pmass) 1e-64 1 in
  div_int remainder_pmass (Z.of_nat vocab_size - topk).

(** One position of [decode_forward_response_tensor]. *)
Definition decode_row (vocab_size : nat) (topk : Z) (encoded_probs : row)
    : outcome (list xreal) :=
  let topk_values := slice_to topk encoded_probs in
  let topk_indices := map to_long (slice_from topk encoded_probs) in
  let floor := remainder_floor vocab_size topk topk_values in
  let logits := map (fun one => xscale one (xlog floor)) (repeat 1 vocab_size) in
  scatter_row logits topk_indices
              (map (fun v => xlog (Fin (v + 1e-64))) topk_values).

(** [decode_forward_response_tensor(forward_response_tensor, vocab_size, topk)] *)
Definition decode_forward_response_tensor (forward_response_tensor : tensor3 R)
    (vocab_size : nat) (topk : Z) : outcome (tensor3 xreal) :=
  let encoded_probs := forward_response_tensor in
  let topk_values := on_rows (slice_to topk) encoded_probs in
  let topk_indices :=
    on_rows (map to_long) (on_rows (slice_from topk) encoded_probs) in
  let topk_pmass := on_rows Rsum topk_values in
  let remainder_pmass :=
    map (map (fun m => clamp (1 - m) 1e-64 1)) topk_pmass in
  let remainder_floor :=
    map (map (fun m => div_int m (Z.of_nat vocab_size - topk))) remainder_pmass in
  let ones := map (map (fun _ : row => repeat 1 vocab_size)) encoded_probs in
  let logits :=
    map (fun bl => map (fun rl => map (fun one => xscale one (xlog (snd rl)))
                                      (fst rl))
                       (combine (fst bl) (snd bl)))
        (combine ones remainder_floor) in
  scatter_ logits topk_indices
           (on_rows (map (fun v => xlog (Fin (v + 1e-64)))) topk_values).

(** The stable insertion sort, one sorter that meets the contract. *)
Fixpoint insert_desc (p : R * nat) (l : list (R * nat)) : list (R * nat) :=
  match l with
  | [] => [p]
  | q :: l' =>
      if Rle_dec (fst q) (fst p) then p :: q :: l' else q :: insert_desc p l'
  end.

Definition isort_desc (l : list (R * nat)) : list (R * nat) :=
  fold_right insert_desc [] l.

Definition insertion_argsort (l : row) : list nat :=
  map snd (isort_desc (combine l (seq 0 (length l)))).

(** *** Auxiliary facts on lists and sums *)

Lemma Rsum_app (l1 l2 : list R) : Rsum (l1 ++ l2) = Rsum l1 + Rsum l2.
Proof.
  induction l1 as [|a l1 IH]; simpl; [lra|]. rewrite IH. lra.
Qed.

Lemma Rsum_perm (l1 l2 : list R) : Permutation l1 l2 -> Rsum l1 = Rsum l2.
Proof.
  induction 1; simpl; lra.
Qed.

Lemma Rsum_nonneg (l : list R) : Forall (fun x => 0 <= x) l -> 0 <= Rsum l.
Proof.
  induction 1; simpl; lra.
Qed.

Lemma Rsum_repeat (x : R) (n : nat) : Rsum (repeat x n) = INR n * x.
Proof.
  induction n as [|n IH]; [simpl; lra|].
  rewrite S_INR. simpl. rewrite IH. lra.
Qed.

Lemma Rsum_map_scale (c : R) (l : list R) :
  Rsum (map (fun x => x / c) l) = Rsum l / c.
Proof.
  induction l as [|a l IH]; simpl; [lra|]. rewrite IH. lra.
Qed.

Lemma Rsum_map_shift (c : R) (l : list R) :
  Rsum (map (fun x => x + c) l) = Rsum l + INR (length l) * c.
Proof.
  induction l as [|a l IH]; [simpl; lra|].
  cbn [map Rsum fold_right length]. fold (Rsum (map (fun x => x + c) l)).
  fold (Rsum l). rewrite IH, S_INR. lra.
Qed.

Lemma Rsum_firstn_le (n : nat) (l : list R) :
  Forall (fun x => 0 <= x) l -> Rsum (firstn n l) <= Rsum l.
Proof.
  intros H. rewrite <- (firstn_skipn n l) at 2. rewrite Rsum_app.
  assert (0 <= Rsum (skipn n l)); [|lra].
  apply Rsum_nonneg. rewrite <- (firstn_skipn n l) in H.
  apply Forall_app in H. tauto.
Qed.

Lemma nth_map_in {A B : Type} (f : A -> B) (l : list A) (d : B) (d' : A)
    (i : nat) :
  (i < length l)%nat -> nth i (map f l) d = f (nth i l d').
Proof.
  intros H. rewrite (nth_indep _ d (f d')) by (rewrite length_map; lia).
  apply map_nth.
Qed.

Lemma to_long_INR (n : nat) : to_long (INR n) = Z.of_nat n.
Proof.
  unfold to_long. destruct (Rle_dec 0 (INR n)) as [_|H].
  - apply Int_part_INR.
  - exfalso. apply H, pos_INR.
Qed.

Lemma map_to_long_INR (l : list nat) :
  map to_long (map INR l) = map Z.of_nat l.
Proof.
  rewrite map_map. apply map_ext. intros; apply to_long_INR.
Qed.

Lemma slice_to_nonneg {A : Type} (k : nat) (l : list A) :
  slice_to (Z.of_nat k) l = firstn k l.
Proof.
  unfold slice_to. destruct (Z.leb_spec 0 (Z.of_nat k)); [|lia].
  now rewrite Nat2Z.id.
Qed.

Lemma slice_from_nonneg {A : Type} (k : nat) (l : list A) :
  slice_from (Z.of_nat k) l = skipn k l.
Proof.
  unfold slice_from. destruct (Z.leb_spec 0 (Z.of_nat k)); [|lia].
  now rewrite Nat2Z.id.
Qed.

Lemma slice_to_app_exact {A : Type} (l1 l2 : list A) :
  slice_to (Z.of_nat (length l1)) (l1 ++ l2) = l1.
Proof.
  rewrite slice_to_nonneg, firstn_app, Nat.sub_diag, firstn_all. simpl.
  apply app_nil_r.
Qed.

Lemma slice_from_app_exact {A : Type} (l1 l2 : list A) :
  slice_from (Z.of_nat (length l1)) (l1 ++ l2) = l2.
Proof.
  rewrite slice_from_nonneg, skipn_app, Nat.sub_diag, skipn_all. reflexivity.
Qed.

(** *** Softmax *)

Lemma Rsum_exp_pos (l : row) : l <> [] -> 0 < Rsum (map exp l).
Proof.
  destruct l as [|a l]; [congruence|]. intros _. simpl.
  assert (0 <= Rsum (map exp l)).
  { apply Rsum_nonneg. apply Forall_forall. intros x Hx.
    apply in_map_iff in Hx as (y & <- & _). left. apply exp_pos. }
  pose proof (exp_pos a). unfold Rsum in *. lra.
Qed.

Lemma softmax_length (l : row) : length (softmax l) = length l.
Proof. apply length_map. Qed.

Lemma softmax_pos (l : row) : Forall (fun p => 0 < p) (softmax l).
Proof.
  apply Forall_forall. intros p Hp.
  apply in_map_iff in Hp as (x & <- & Hx).
  apply Rdiv_lt_0_compat; [apply exp_pos|].
  apply Rsum_exp_pos. intros ->. contradiction.
Qed.

Lemma softmax_sum (l : row) : l <> [] -> Rsum (softmax l) = 1.
Proof.
  intros H. unfold softmax.
  rewrite <- (map_map exp (fun e => e / Rsum (map exp l))).
  rewrite Rsum_map_scale. pose proof (Rsum_exp_pos l H). field. lra.
Qed.

Lemma softmax_nth (l : row) (i : nat) :
  (i < length l)%nat ->
  nth i (softmax l) 0 = exp (nth i l 0) / Rsum (map exp l).
Proof.
  intros H. unfold softmax.
  rewrite (nth_indep _ 0 (exp 0 / Rsum (map exp l))) by (rewrite length_map; lia).
  apply (map_nth (fun x => exp x / Rsum (map exp l))).
Qed.

(** Softmax keeps the order of the logits. *)
Lemma softmax_monotone (l : row) (i j : nat) :
  (i < length l)%nat -> (j < length l)%nat ->
  nth i (softmax l) 0 <= nth j (softmax l) 0 -> nth i l 0 <= nth j l 0.
Proof.
  intros Hi Hj. rewrite !softmax_nth by assumption.
  assert (Hs : 0 < Rsum (map exp l)).
  { apply Rsum_exp_pos. intros ->. simpl in Hi. lia. }
  intros H. apply Rmult_le_reg_r in H; [|now apply Rinv_0_lt_compat].
  destruct (Rle_dec (nth i l 0) (nth j l 0)) as [|Hn]; [assumption|].
  apply Rnot_le_lt, exp_increasing in Hn. lra.
Qed.

(** *** The insertion sort meets the sorter contract *)

Lemma insert_desc_perm (p : R * nat) (l : list (R * nat)) :
  Permutation (insert_desc p l) (p :: l).
Proof.
  induction l as [|q l IH]; simpl; [reflexivity|].
  destruct (Rle_dec (fst q) (fst p)); [reflexivity|].
  rewrite IH. apply perm_swap.
Qed.

Lemma isort_desc_perm (l : list (R * nat)) : Permutation (isort_desc l) l.
Proof.
  induction l as [|p l IH]; simpl; [reflexivity|].
  rewrite insert_desc_perm. now constructor.
Qed.

Definition pair_ge (p q : R * nat) : Prop := fst q <= fst p.

Lemma insert_desc_sorted (p : R * nat) (l : list (R * nat)) :
  StronglySorted pair_ge l -> StronglySorted pair_ge (insert_desc p l).
Proof.
  induction 1 as [|q l Hs IH Hq]; simpl.
  - repeat constructor.
  - destruct (Rle_dec (fst q) (fst p)) as [Hle|Hgt].
    + constructor; [now constructor|]. constructor; [exact Hle|].
      eapply Forall_impl; [|exact Hq]. unfold pair_ge. intros; lra.
    + constructor; [exact IH|].
      eapply Permutation_Forall; [symmetry; apply insert_desc_perm|].
      constructor; [unfold pair_ge; lra | exact Hq].
Qed.

Lemma isort_desc_sorted (l : list (R * nat)) :
  StronglySorted pair_ge (isort_desc l).
Proof.
  induction l as [|p l IH]; simpl; [constructor|].
  now apply insert_desc_sorted.
Qed.

Lemma sorted_pairs_descending (l : list (R * nat)) :
  StronglySorted pair_ge l -> descending (map fst l).
Proof.
  induction 1 as [|q l Hs IH Hq]; intros i j Hij Hj; simpl in Hj; [lia|].
  destruct j as [|j]; [replace i with 0%nat by lia; simpl; lra|].
  destruct i as [|i]; simpl.
  - rewrite Forall_forall in Hq.
    assert (Hin : In (nth j l (0, 0%nat)) l) by (apply nth_In; rewrite length_map in Hj; lia).
    specialize (Hq _ Hin). unfold pair_ge in Hq.
    rewrite (nth_indep _ 0 (fst (0, 0%nat))) by lia.
    now rewrite map_nth.
  - apply IH; lia.
Qed.

Lemma in_combine_seq (l : row) (s : nat) (v : R) (i : nat) :
  In (v, i) (combine l (seq s (length l))) ->
  (s <= i)%nat /\ nth (i - s) l 0 = v.
Proof.
  revert s. induction l as [|a l IH]; intros s; simpl; [tauto|].
  intros [H|H].
  - inversion H; subst. rewrite Nat.sub_diag. split; [lia|reflexivity].
  - apply IH in H as [H1 H2]. split; [lia|].
    replace (i - s)%nat with (S (i - S s)) by lia. exact H2.
Qed.

Lemma map_snd_combine_seq (l : row) (s : nat) :
  map snd (combine l (seq s (length l))) = seq s (length l).
Proof.
  revert s. induction l as [|a l IH]; intros s; simpl; [reflexivity|].
  now rewrite IH.
Qed.

Lemma insertion_argsort_perm (l : row) :
  Permutation (insertion_argsort l) (seq 0 (length l)).
Proof.
  unfold insertion_argsort. rewrite <- (map_snd_combine_seq l 0) at 2.
  apply Permutation_map, isort_desc_perm.
Qed.

Lemma insertion_argsort_values (l : row) :
  map (fun i => nth i l 0) (insertion_argsort l)
  = map fst (isort_desc (combine l (seq 0 (length l)))).
Proof.
  unfold insertion_argsort. rewrite map_map. apply map_ext_in.
  intros [v i] Hin. simpl.
  eapply Permutation_in in Hin; [|apply isort_desc_perm].
  apply in_combine_seq in Hin as [_ H]. now rewrite Nat.sub_0_r in H.
Qed.

Lemma insertion_argsort_desc (l : row) :
  descending (map (fun i => nth i l 0) (insertion_argsort l)).
Proof.
  rewrite insertion_argsort_values.
  apply sorted_pairs_descending, isort_desc_sorted.
Qed.

(** The stable sorter. *)
Definition insertion_sorter : Sorter :=
  {| argsort := insertion_argsort;
     argsort_perm := insertion_argsort_perm;
     argsort_desc := insertion_argsort_desc |}.

(** *** Consequences of the sorter contract *)

Section SorterFacts.
Variable S : Sorter.

Lemma argsort_length (l : row) : length (argsort S l) = length l.
Proof.
  rewrite (Permutation_length (argsort_perm S l)). apply length_seq.
Qed.

Lemma argsort_NoDup (l : row) : NoDup (argsort S l).
Proof.
  eapply Permutation_NoDup; [symmetry; apply argsort_perm|apply seq_NoDup].
Qed.

Lemma argsort_In (l : row) (i : nat) :
  In i (argsort S l) <-> (i < length l)%nat.
Proof.
  split; intros H.
  - eapply Permutation_in in H; [|apply argsort_perm].
    apply in_seq in H. lia.
  - eapply Permutation_in; [symmetry; apply argsort_perm|].
    apply in_seq. lia.
Qed.

(** The indices kept for a non-negative [topk]. *)
Definition kept (k : nat) (l : row) : list nat := firstn k (argsort S l).

Lemma kept_length (k : nat) (l : row) :
  length (kept k l) = Nat.min k (length l).
Proof. unfold kept. now rewrite length_firstn, argsort_length. Qed.

Lemma kept_NoDup (k : nat) (l : row) : NoDup (kept k l).
Proof.
  unfold kept. pose proof (argsort_NoDup l) as H.
  rewrite <- (firstn_skipn k (argsort S l)) in H.
  now apply NoDup_app_remove_r in H.
Qed.

Lemma kept_range (k : nat) (l : row) :
  Forall (fun i => (i < length l)%nat) (kept k l).
Proof.
  apply Forall_forall. intros i Hi. apply argsort_In.
  unfold kept in Hi. rewrite <- (firstn_skipn k (argsort S l)).
  apply in_or_app. now left.
Qed.

Lemma kept_all (l : row) : Permutation (kept (length l) l) (seq 0 (length l)).
Proof.
  unfold kept. rewrite <- (argsort_length l) at 1. rewrite firstn_all.
  apply argsort_perm.
Qed.

(** The kept values are the entries at the kept indices. *)
Lemma kept_values (k : nat) (l : row) :
  firstn k (fst (sort_desc S l)) = map (fun i => nth i l 0) (kept k l).
Proof. unfold kept. simpl. apply firstn_map. Qed.

Lemma kept_values_descending (k : nat) (l : row) :
  descending (map (fun i => nth i l 0) (kept k l)).
Proof.
  rewrite <- kept_values. simpl. intros i j Hij Hj.
  rewrite length_firstn in Hj.
  rewrite !nth_firstn.
  destruct (Nat.ltb_spec j k); [|lia].
  destruct (Nat.ltb_spec i k); [|lia].
  apply (argsort_desc S l); lia.
Qed.

(** No entry outside the kept indices exceeds a kept one. *)
Lemma kept_largest (k : nat) (l : row) (i m : nat) :
  In i (kept k l) -> (m < length l)%nat -> ~ In m (kept k l) ->
  nth m l 0 <= nth i l 0.
Proof.
  intros Hi Hm Hnm.
  apply argsort_In in Hm.
  apply (In_nth _ _ 0%nat) in Hi as (a & Ha & Hai).
  apply (In_nth _ _ 0%nat) in Hm as (b & Hb & Hbm).
  unfold kept in *. rewrite length_firstn in Ha.
  rewrite nth_firstn in Hai. destruct (Nat.ltb_spec a k); [|lia].
  assert (Hkb : (k <= b)%nat).
  { destruct (Nat.le_gt_cases k b) as [|Hlt]; [assumption|].
    exfalso. apply Hnm. rewrite <- Hbm.
    replace (nth b (argsort S l) 0%nat)
      with (nth b (firstn k (argsort S l)) 0%nat).
    - apply nth_In. rewrite length_firstn. lia.
    - rewrite nth_firstn. destruct (Nat.ltb_spec b k); [reflexivity|lia]. }
  pose proof (argsort_desc S l a b ltac:(lia)) as Hd.
  rewrite length_map in Hd. specialize (Hd Hb).
  rewrite !(nth_map_in _ _ _ 0%nat) in Hd by lia.
  now rewrite Hai, Hbm in Hd.
Qed.

End SorterFacts.

(** *** Scatter as a sequence of writes *)

Fixpoint writes {A : Type} (out : list A) (idx : list nat) (src : list A)
    : list A :=
  match idx, src with
  | i :: idx', s :: src' => writes (update i s out) idx' src'
  | _, _ => out
  end.

Lemma update_length {A : Type} (i : nat) (x : A) (l : list A) :
  length (update i x l) = length l.
Proof.
  revert i. induction l as [|a l IH]; intros [|i]; simpl; auto.
Qed.

Lemma update_nth_same {A : Type} (i : nat) (x d : A) (l : list A) :
  (i < length l)%nat -> nth i (update i x l) d = x.
Proof.
  revert i. induction l as [|a l IH]; intros [|i] H; simpl in *; try lia; auto.
  apply IH. lia.
Qed.

Lemma update_nth_other {A : Type} (i j : nat) (x d : A) (l : list A) :
  i <> j -> nth j (update i x l) d = nth j l d.
Proof.
  revert i j. induction l as [|a l IH]; intros [|i] [|j] H; simpl; auto.
  congruence.
Qed.

Lemma update_Forall {A : Type} (P : A -> Prop) (i : nat) (x : A) (l : list A) :
  P x -> Forall P l -> Forall P (update i x l).
Proof.
  intros Hx. revert i. induction l as [|a l IH]; intros [|i] H; simpl; auto;
    inversion H; subst; constructor; auto.
Qed.

Lemma writes_length {A : Type} (idx : list nat) (src out : list A) :
  length (writes out idx src) = length out.
Proof.
  revert src out. induction idx as [|i idx IH]; intros [|s src] out; simpl; auto.
  now rewrite IH, update_length.
Qed.

Lemma writes_nth_other {A : Type} (idx : list nat) (src out : list A)
    (d : A) (m : nat) :
  ~ In m idx -> nth m (writes out idx src) d = nth m out d.
Proof.
  revert src out. induction idx as [|i idx IH]; intros [|s src] out H; simpl; auto.
  rewrite IH by (intros Hin; apply H; now right).
  apply update_nth_other. intros ->. apply H. now left.
Qed.

Lemma writes_nth_written {A : Type} (idx : list nat) (src out : list A)
    (d : A) (j : nat) :
  NoDup idx -> Forall (fun i => (i < length out)%nat) idx ->
  (j < length idx)%nat -> (j < length src)%nat ->
  nth (nth j idx 0%nat) (writes out idx src) d = nth j src d.
Proof.
  revert src out j.
  induction idx as [|i idx IH]; intros [|s src] out j Hnd Hr Hj Hs;
    simpl in Hj, Hs; try lia.
  inversion Hnd as [|? ? Hni Hnd']; subst.
  inversion Hr as [|? ? Hi Hr']; subst.
  destruct j as [|j]; simpl.
  - rewrite writes_nth_other by assumption. now apply update_nth_same.
  - apply IH; try lia; try assumption.
    eapply Forall_impl; [|exact Hr']. intros a. now rewrite update_length.
Qed.

Lemma writes_Forall {A : Type} (P : A -> Prop) (idx : list nat)
    (src out : list A) :
  Forall P out -> Forall P src -> Forall P (writes out idx src).
Proof.
  revert src out. induction idx as [|i idx IH]; intros [|s src] out Ho Hs;
    simpl; auto.
  inversion Hs; subst. apply IH; [|assumption]. now apply update_Forall.
Qed.

Lemma scatter_row_writes (idx : list nat) (src out : list xreal) :
  Forall (fun i => (i < length out)%nat) idx ->
  (length idx <= length src)%nat ->
  scatter_row out (map Z.of_nat idx) src = Returned (writes out idx src).
Proof.
  revert src out. induction idx as [|i idx IH]; intros src out Hr Hl.
  - destruct src; reflexivity.
  - destruct src as [|s src]; simpl in Hl; [lia|].
    inversion Hr as [|? ? Hi Hr']; subst. simpl.
    destruct (Z.leb_spec 0 (Z.of_nat i)); [|lia].
    destruct (Z.ltb_spec (Z.of_nat i) (Z.of_nat (length out))); [|lia].
    simpl. rewrite Nat2Z.id. apply IH; [|lia].
    eapply Forall_impl; [|exact Hr']. intros a. now rewrite update_length.
Qed.

(** *** The positions that no write reaches *)

Definition others (V : nat) (idx : list nat) : list nat :=
  filter (fun i => negb (existsb (Nat.eqb i) idx)) (seq 0 V).

Lemma others_spec (V : nat) (idx : list nat) (i : nat) :
  In i (others V idx) <-> (i < V)%nat /\ ~ In i idx.
Proof.
  unfold others. rewrite filter_In, in_seq, negb_true_iff.
  rewrite <- not_true_iff_false, existsb_exists.
  split; intros [H1 H2]; (split; [lia|]); intros H; apply H2.
  - exists i. split; [assumption|apply Nat.eqb_refl].
  - destruct H as (x & Hx & He). apply Nat.eqb_eq in He. now subst.
Qed.

Lemma seq_split (V : nat) (idx : list nat) :
  NoDup idx -> Forall (fun i => (i < V)%nat) idx ->
  Permutation (seq 0 V) (idx ++ others V idx).
Proof.
  intros Hnd Hr. apply NoDup_Permutation.
  - apply seq_NoDup.
  - apply NoDup_app; [assumption| |].
    + apply NoDup_filter, seq_NoDup.
    + intros x Hx Hx'. apply others_spec in Hx'. tauto.
  - intros x. rewrite in_seq, in_app_iff, others_spec.
    rewrite Forall_forall in Hr. split.
    + intros H. destruct (in_dec Nat.eq_dec x idx); [now left|right]. split; [lia|auto].
    + intros [H|[H _]]; [apply Hr in H|]; lia.
Qed.

Lemma others_length (V : nat) (idx : list nat) :
  NoDup idx -> Forall (fun i => (i < V)%nat) idx ->
  length (others V idx) = (V - length idx)%nat.
Proof.
  intros Hnd Hr. pose proof (Permutation_length (seq_split V idx Hnd Hr)) as H.
  rewrite length_seq, length_app in H. lia.
Qed.

Lemma list_by_positions {A : Type} (l : list A) (d : A) :
  l = map (fun i => nth i l d) (seq 0 (length l)).
Proof.
  apply (nth_ext _ _ d d).
  - now rewrite length_map, length_seq.
  - intros n Hn. rewrite (nth_map_in _ _ _ 0%nat) by (rewrite length_seq; lia).
    now rewrite seq_nth.
Qed.

Lemma split_by_positions {A : Type} (l : list A) (d : A) (idx : list nat) :
  NoDup idx -> Forall (fun i => (i < length l)%nat) idx ->
  Permutation l (map (fun i => nth i l d) idx
                 ++ map (fun i => nth i l d) (others (length l) idx)).
Proof.
  intros Hnd Hr. rewrite (list_by_positions l d) at 1.
  rewrite <- map_app. now apply Permutation_map, seq_split.
Qed.

(** *** Tensor operations act position by position *)

Lemma combine_map_same {A B C : Type} (f : A -> B) (g : A -> C) (l : list A) :
  combine (map f l) (map g l) = map (fun x => (f x, g x)) l.
Proof.
  induction l as [|a l IH]; simpl; [reflexivity|]. now rewrite IH.
Qed.

Lemma rows_map_map {A B C : Type} (f : B -> C) (g : A -> B)
    (t : list (list A)) :
  map (map f) (map (map g) t) = map (map (fun x => f (g x))) t.
Proof.
  rewrite map_map. apply map_ext. intros b. apply map_map.
Qed.

Lemma on_rows2_same {A B C D : Type} (h : list B -> list C -> D)
    (f : A -> list B) (g : A -> list C) (t : list (list A)) :
  on_rows2 h (map (map f) t) (map (map g) t)
  = map (map (fun r => h (f r) (g r))) t.
Proof.
  unfold on_rows2. rewrite combine_map_same, map_map.
  apply map_ext. intros b. simpl.
  rewrite combine_map_same, map_map. reflexivity.
Qed.

Lemma mapM_ext {A B : Type} (f g : A -> outcome B) (l : list A) :
  (forall a, f a = g a) -> mapM f l = mapM g l.
Proof.
  intros H. induction l as [|a l IH]; simpl; [reflexivity|].
  now rewrite H, IH.
Qed.

Lemma mapM_map {A B C : Type} (f : B -> outcome C) (g : A -> B) (l : list A) :
  mapM f (map g l) = mapM (fun a => f (g a)) l.
Proof.
  induction l as [|a l IH]; simpl; [reflexivity|]. now rewrite IH.
Qed.

Lemma scatter_same {A : Type} (f : A -> list xreal) (g : A -> list Z)
    (h : A -> list xreal) (t : list (list A)) :
  scatter_ (map (map f) t) (map (map g) t) (map (map h) t)
  = mapM (mapM (fun r => scatter_row (f r) (g r) (h r))) t.
Proof.
  unfold scatter_. rewrite !combine_map_same, mapM_map.
  apply mapM_ext. intros b. simpl.
  now rewrite !combine_map_same, mapM_map.
Qed.

(** The encoder works independently on every batch element and position. *)
Lemma encode_by_rows (S : Sorter) (t : tensor3 R) (topk : Z) :
  encode_forward_response_tensor S t topk
  = Returned (map (map (encode_row S topk)) t).
Proof.
  unfold encode_forward_response_tensor, cat, on_rows. f_equal.
  rewrite !rows_map_map, on_rows2_same. reflexivity.
Qed.

(** So does the decoder. *)
Lemma decode_by_rows (t : tensor3 R) (vocab_size : nat) (topk : Z) :
  decode_forward_response_tensor t vocab_size topk
  = mapM (mapM (decode_row vocab_size topk)) t.
Proof.
  unfold decode_forward_response_tensor, on_rows.
  rewrite !rows_map_map.
  rewrite combine_map_same, map_map.
  erewrite (map_ext _ (map (fun r => _))).
  2:{ intros b. simpl. rewrite combine_map_same, map_map. simpl. reflexivity. }
  rewrite (scatter_same _ _ _ t). reflexivity.
Qed.

(** *** One encoded position *)

(** For a non-negative [topk] an encoded position is the kept values followed
    by the kept indices. *)
Lemma encode_row_kept (S : Sorter) (k : nat) (x : row) :
  encode_row S (Z.of_nat k) x
  = map (fun i => nth i (softmax x) 0) (kept S k (softmax x))
    ++ map INR (kept S k (softmax x)).
Proof.
  unfold encode_row.
  change (sort_desc S (softmax x))
    with (fst (sort_desc S (softmax x)), argsort S (softmax x)).
  cbv beta iota. rewrite !slice_to_nonneg, kept_values. reflexivity.
Qed.

Lemma kept_values_pos (S : Sorter) (k : nat) (x : row) :
  Forall (fun v => 0 < v)
         (map (fun i => nth i (softmax x) 0) (kept S k (softmax x))).
Proof.
  apply Forall_forall. intros v Hv. apply in_map_iff in Hv as (i & <- & Hi).
  pose proof (softmax_pos x) as Hp. rewrite Forall_forall in Hp. apply Hp.
  apply nth_In.
  pose proof (kept_range S k (softmax x)) as Hr. rewrite Forall_forall in Hr.
  now apply Hr.
Qed.

Lemma kept_values_sum_le_row (S : Sorter) (k : nat) (p : row) :
  Forall (fun v => 0 < v) p ->
  Rsum (map (fun i => nth i p 0) (kept S k p)) <= Rsum p.
Proof.
  intros Hp. rewrite <- kept_values.
  change (fst (sort_desc S p)) with (map (fun i => nth i p 0) (argsort S p)).
  eapply Rle_trans; [apply Rsum_firstn_le|].
  - apply Forall_forall. intros v Hv.
    apply in_map_iff in Hv as (i & <- & Hi).
    rewrite Forall_forall in Hp.
    left. apply Hp, nth_In. now apply (argsort_In S) in Hi.
  - erewrite Rsum_perm; [|apply Permutation_map, (argsort_perm S)].
    rewrite <- list_by_positions. lra.
Qed.

Lemma kept_values_sum_le (S : Sorter) (k : nat) (x : row) :
  Rsum (map (fun i => nth i (softmax x) 0) (kept S k (softmax x))) <= 1.
Proof.
  eapply Rle_trans; [apply kept_values_sum_le_row, softmax_pos|].
  destruct x as [|a x]; [simpl; lra|].
  rewrite softmax_sum by discriminate. lra.
Qed.

(** With [topk] equal to the row length every position is kept. *)
Lemma kept_values_sum_all (S : Sorter) (x : row) :
  x <> [] ->
  Rsum (map (fun i => nth i (softmax x) 0) (kept S (length x) (softmax x))) = 1.
Proof.
  intros Hx. rewrite <- (softmax_length x) at 1.
  erewrite Rsum_perm; [|apply Permutation_map, kept_all].
  rewrite <- list_by_positions. now apply softmax_sum.
Qed.

(** *** One decoded position *)

Lemma xscale_one (x : xreal) : xscale 1 x = x.
Proof.
  destruct x; simpl; try reflexivity.
  - f_equal. lra.
  - destruct (Rlt_dec 0 1); [reflexivity|lra].
  - destruct (Rlt_dec 0 1); [reflexivity|lra].
Qed.

Lemma ones_scaled (V : nat) (x : xreal) :
  map (fun one => xscale one x) (repeat 1 V) = repeat x V.
Proof.
  induction V as [|V IH]; simpl; [reflexivity|].
  now rewrite xscale_one, IH.
Qed.

Lemma clamp_bounds (x : R) : 1e-64 <= clamp x 1e-64 1 <= 1.
Proof.
  unfold clamp, Rmin, Rmax.
  destruct (Rle_dec x 1e-64); destruct (Rle_dec _ 1); lra.
Qed.

Lemma clamp_inside (x : R) : 1e-64 <= x <= 1 -> clamp x 1e-64 1 = x.
Proof.
  intros H. unfold clamp, Rmin, Rmax.
  destruct (Rle_dec x 1e-64); destruct (Rle_dec _ 1); lra.
Qed.

Lemma clamp_below (x : R) : x <= 1e-64 -> clamp x 1e-64 1 = 1e-64.
Proof.
  intros H. unfold clamp, Rmin, Rmax.
  destruct (Rle_dec x 1e-64); destruct (Rle_dec _ 1); lra.
Qed.

(** The uniform floor in probability space, for [topk < vocab_size]. *)
Definition floor_value (V k : nat) (topk_values : row) : R :=
  clamp (1 - Rsum topk_values) 1e-64 1 / INR (V - k).

Lemma floor_value_pos (V k : nat) (vs : row) :
  (k < V)%nat -> 0 < floor_value V k vs.
Proof.
  intros H. unfold floor_value. apply Rdiv_lt_0_compat.
  - pose proof (clamp_bounds (1 - Rsum vs)). lra.
  - apply lt_0_INR. lia.
Qed.

Lemma remainder_floor_lt (V k : nat) (vs : row) :
  (k < V)%nat ->
  remainder_floor V (Z.of_nat k) vs = Fin (floor_value V k vs).
Proof.
  intros H. unfold remainder_floor, div_int, floor_value.
  destruct (Z.eqb_spec (Z.of_nat V - Z.of_nat k) 0); [lia|].
  rewrite <- Nat2Z.inj_sub by lia. now rewrite <- INR_IZR_INZ.
Qed.

Lemma xlog_pos (r : R) : 0 < r -> xlog (Fin r) = Fin (ln r).
Proof.
  intros H. simpl. destruct (Rlt_dec 0 r); [reflexivity|contradiction].
Qed.

Lemma floor_log_lt (V k : nat) (vs : row) :
  (k < V)%nat ->
  xlog (remainder_floor V (Z.of_nat k) vs) = Fin (ln (floor_value V k vs)).
Proof.
  intros H. rewrite remainder_floor_lt by assumption.
  apply xlog_pos. now apply floor_value_pos.
Qed.

(** Decoding a well-formed position: [k] values followed by [k] indices of
    the vocabulary. *)
Lemma decode_row_wf (V k : nat) (vs : row) (idx : list nat) :
  length vs = k -> length idx = k ->
  Forall (fun i => (i < V)%nat) idx ->
  decode_row V (Z.of_nat k) (vs ++ map INR idx)
  = Returned (writes (repeat (xlog (remainder_floor V (Z.of_nat k) vs)) V) idx
                     (map (fun v => xlog (Fin (v + 1e-64))) vs)).
Proof.
  intros Hv Hi Hr. unfold decode_row. subst k.
  rewrite slice_to_app_exact, slice_from_app_exact.
  rewrite map_to_long_INR, ones_scaled.
  apply scatter_row_writes.
  - now rewrite repeat_length.
  - rewrite length_map. lia.
Qed.

(** *** Sums of possibly non-finite values *)

Lemma xadd_comm (x y : xreal) : xadd x y = xadd y x.
Proof. destruct x, y; simpl; try reflexivity. f_equal. lra. Qed.

Lemma xadd_assoc (x y z : xreal) : xadd x (xadd y z) = xadd (xadd x y) z.
Proof. destruct x, y, z; simpl; try reflexivity. f_equal. lra. Qed.

Lemma xadd_0_l (x : xreal) : xadd (Fin 0) x = x.
Proof. destruct x; simpl; try reflexivity. f_equal. lra. Qed.

Lemma xsum_app (l1 l2 : list xreal) :
  xsum (l1 ++ l2) = xadd (xsum l1) (xsum l2).
Proof.
  induction l1 as [|a l1 IH].
  - change (xsum l2 = xadd (Fin 0) (xsum l2)). now rewrite xadd_0_l.
  - change (xadd a (xsum (l1 ++ l2)) = xadd (xadd a (xsum l1)) (xsum l2)).
    now rewrite IH, xadd_assoc.
Qed.

Lemma xsum_perm (l1 l2 : list xreal) :
  Permutation l1 l2 -> xsum l1 = xsum l2.
Proof.
  induction 1 as [|a l1 l2 _ IH|a b l|l1 l2 l3 _ IH1 _ IH2].
  - reflexivity.
  - change (xadd a (xsum l1) = xadd a (xsum l2)). now rewrite IH.
  - change (xadd b (xadd a (xsum l)) = xadd a (xadd b (xsum l))).
    rewrite !xadd_assoc. f_equal. apply xadd_comm.
  - congruence.
Qed.

Lemma xsum_Fin (l : list R) : xsum (map Fin l) = Fin (Rsum l).
Proof.
  induction l as [|a l IH]; [reflexivity|].
  change (xadd (Fin a) (xsum (map Fin l)) = Fin (a + Rsum l)).
  now rewrite IH.
Qed.

(** *** Decoding an encoded position *)

Section RoundTrip.
Variable S : Sorter.
Variable x : row.
Variable k : nat.
Hypothesis k_valid : (k <= length x)%nat.

Let V := length x.
Let p := softmax x.
Let idx := kept S k p.
Let vs := map (fun i => nth i p 0) idx.
Let fl := xlog (remainder_floor V (Z.of_nat k) vs).

(** The decoded position. *)
Definition decoded : list xreal :=
  writes (repeat fl V) idx (map (fun v => xlog (Fin (v + 1e-64))) vs).

Lemma idx_length : length idx = k.
Proof.
  unfold idx. rewrite kept_length. unfold p. rewrite softmax_length. lia.
Qed.

Lemma idx_range : Forall (fun i => (i < V)%nat) idx.
Proof.
  unfold V. rewrite <- (softmax_length x). apply kept_range.
Qed.

Lemma roundtrip_row :
  decode_row V (Z.of_nat k) (encode_row S (Z.of_nat k) x) = Returned decoded.
Proof.
  rewrite encode_row_kept. apply decode_row_wf.
  - unfold vs. rewrite length_map. apply idx_length.
  - apply idx_length.
  - apply idx_range.
Qed.

Lemma decoded_length : length decoded = V.
Proof. unfold decoded. now rewrite writes_length, repeat_length. Qed.

Lemma vs_pos : Forall (fun v => 0 < v) vs.
Proof. apply kept_values_pos. Qed.

Lemma decoded_kept (i : nat) (d : xreal) :
  In i idx -> nth i decoded d = Fin (ln (nth i p 0 + 1e-64)).
Proof.
  intros Hi. apply (In_nth _ _ 0%nat) in Hi as (j & Hj & <-).
  unfold decoded. rewrite writes_nth_written.
  - rewrite (nth_map_in _ _ _ 0) by (unfold vs; now rewrite length_map).
    unfold vs at 1. rewrite (nth_map_in _ _ _ 0%nat) by assumption.
    apply xlog_pos.
    assert (0 < nth (nth j idx 0%nat) p 0); [|lra].
    pose proof (softmax_pos x) as Hp. rewrite Forall_forall in Hp.
    apply Hp, nth_In. fold p.
    pose proof (kept_range S k p) as Hr. rewrite Forall_forall in Hr.
    apply Hr, nth_In. exact Hj.
  - apply kept_NoDup.
  - rewrite repeat_length. apply idx_range.
  - assumption.
  - unfold vs. now rewrite !length_map.
Qed.

Lemma decoded_other (i : nat) (d : xreal) :
  (i < V)%nat -> ~ In i idx -> nth i decoded d = fl.
Proof.
  intros Hi Hn. unfold decoded. rewrite writes_nth_other by assumption.
  rewrite (nth_indep _ d fl) by now rewrite repeat_length.
  apply nth_repeat.
Qed.

(** The decoded position, split into written and untouched entries. *)
Lemma decoded_split :
  Permutation decoded
    (map (fun v => Fin (ln (v + 1e-64))) vs
     ++ repeat fl (V - k)).
Proof.
  pose proof (split_by_positions decoded NaN idx (kept_NoDup S k p)) as H.
  rewrite decoded_length in H. specialize (H idx_range).
  rewrite H. apply Permutation_app.
  - unfold vs. rewrite map_map.
    erewrite map_ext_in; [reflexivity|].
    intros i Hi. now apply decoded_kept.
  - erewrite map_ext_in.
    2:{ intros i Hi. apply others_spec in Hi as [Hi Hn].
        apply (decoded_other i NaN Hi Hn). }
    rewrite map_const, others_length, idx_length;
      [reflexivity|apply kept_NoDup|apply idx_range].
Qed.

Lemma read_back_vs :
  map xexp (map (fun v => Fin (ln (v + 1e-64))) vs)
  = map Fin (map (fun v => v + 1e-64) vs).
Proof.
  rewrite !map_map. apply map_ext_in. intros v Hv. simpl. f_equal.
  apply exp_ln. pose proof vs_pos as Hp. rewrite Forall_forall in Hp.
  specialize (Hp v Hv). lra.
Qed.

Lemma vs_sum_bounds : 0 <= Rsum vs <= 1.
Proof.
  split.
  - apply Rsum_nonneg. eapply Forall_impl; [|apply vs_pos].
    intros; simpl in *; lra.
  - apply kept_values_sum_le.
Qed.

(** Reading the decoded position back as probabilities and summing. *)
Lemma decoded_mass :
  x <> [] ->
  exists s, xsum (map xexp decoded) = Fin s
            /\ Rabs (s - 1) <= (INR k + 1) * 1e-64.
Proof.
  intros Hx.
  rewrite (xsum_perm _ _ (Permutation_map xexp decoded_split)).
  rewrite map_app, xsum_app, read_back_vs, xsum_Fin, Rsum_map_shift.
  unfold vs at 2. rewrite length_map, idx_length.
  pose proof vs_sum_bounds as Hb. pose proof (pos_INR k) as Hk.
  destruct (Nat.eq_dec k V) as [He|Hne].
  - rewrite He, Nat.sub_diag. simpl repeat. simpl map. cbn [xsum fold_right xadd].
    eexists. split; [reflexivity|].
    assert (Hs : Rsum vs = 1).
    { unfold vs, idx, p. rewrite He. unfold V. now apply kept_values_sum_all. }
    rewrite Hs, <- He. rewrite Rabs_pos_eq; lra.
  - assert (Hlt : (k < V)%nat) by (unfold V; lia).
    unfold fl. rewrite floor_log_lt by assumption.
    rewrite map_repeat. simpl xexp.
    rewrite exp_ln by now apply floor_value_pos.
    rewrite <- map_repeat, xsum_Fin, Rsum_repeat. cbn [xadd].
    eexists. split; [reflexivity|].
    unfold floor_value.
    assert (Hd : 0 < INR (V - k)) by (apply lt_0_INR; lia).
    replace (INR (V - k) * (clamp (1 - Rsum vs) 1e-64 1 / INR (V - k)))
      with (clamp (1 - Rsum vs) 1e-64 1) by (field; lra).
    destruct (Rle_dec (1 - Rsum vs) 1e-64) as [Hc|Hc].
    + rewrite clamp_below by assumption.
      apply Rabs_le. lra.
    + rewrite clamp_inside by lra. apply Rabs_le. lra.
Qed.

End RoundTrip.

(** With every position kept the decoded row lists, id by id, the logarithm
    of the softmax of the input. *)
Lemma decoded_full (S : Sorter) (x : row) :
  decoded S x (length x) = map (fun v => Fin (ln (v + 1e-64))) (softmax x).
Proof.
  apply (nth_ext _ _ NaN NaN).
  - now rewrite decoded_length, length_map, softmax_length.
  - intros i Hi. rewrite decoded_length in Hi.
    rewrite decoded_kept.
    + rewrite (nth_map_in _ _ _ 0) by now rewrite softmax_length.
      reflexivity.
    + eapply Permutation_in.
      * symmetry. rewrite <- (softmax_length x) at 1. apply kept_all.
      * apply in_seq. rewrite softmax_length. lia.
Qed.

(** *** From positions to tensors *)

Lemma mapM_Forall2 {A B : Type} (f : A -> outcome B) (P : A -> B -> Prop)
    (l : list A) :
  Forall (fun a => exists b, f a = Returned b /\ P a b) l ->
  exists bs, mapM f l = Returned bs /\ Forall2 P l bs.
Proof.
  induction 1 as [|a l (b & Hb & HP) _ (bs & Hbs & HPs)].
  - exists []. split; [reflexivity|constructor].
  - exists (b :: bs). simpl. rewrite Hb. simpl. rewrite Hbs. simpl.
    split; [reflexivity|now constructor].
Qed.

(** A tensor of shape [[batch, sequence_len, V]]. *)
Definition last_dim {A : Type} (V : nat) (t : tensor3 A) : Prop :=
  Forall (Forall (fun r => length r = V)) t.

Lemma roundtrip_lift (S : Sorter) (V : nat) (topk : Z)
    (P : row -> list xreal -> Prop) (t : tensor3 R) :
  (forall x, length x = V ->
             exists o, decode_row V topk (encode_row S topk x) = Returned o
                       /\ P x o) ->
  last_dim V t ->
  exists enc dec,
    encode_forward_response_tensor S t topk = Returned enc
    /\ decode_forward_response_tensor enc V topk = Returned dec
    /\ Forall2 (Forall2 P) t dec.
Proof.
  intros Hrow Ht.
  assert (H : exists dec,
             mapM (fun b => mapM (fun x => decode_row V topk (encode_row S topk x)) b) t
             = Returned dec /\ Forall2 (Forall2 P) t dec).
  { apply mapM_Forall2. eapply Forall_impl; [|exact Ht]. intros b Hb.
    apply mapM_Forall2. eapply Forall_impl; [|exact Hb]. exact Hrow. }
  destruct H as (dec & Hdec & HP).
  exists (map (map (encode_row S topk)) t), dec.
  split; [apply encode_by_rows|]. split; [|exact HP].
  rewrite decode_by_rows, mapM_map. etransitivity; [|exact Hdec].
  apply mapM_ext. intros b. apply mapM_map.
Qed.

Lemma Forall2_map_same {A B : Type} (f : A -> B) (P : A -> B -> Prop)
    (l : list A) :
  (forall a, In a l -> P a (f a)) -> Forall2 P l (map f l).
Proof.
  induction l as [|a l IH]; intros H; simpl; constructor.
  - apply H. now left.
  - apply IH. intros; apply H. now right.
Qed.

(** The number of entries [l[:k]] keeps of a row of length [n]. *)
Definition kept_count (k : Z) (n : nat) : nat :=
  if (0 <=? k)%Z then Nat.min (Z.to_nat k) n else (n - Z.to_nat (- k))%nat.

Lemma slice_to_length {A : Type} (k : Z) (l : list A) :
  length (slice_to k l) = kept_count k (length l).
Proof.
  unfold slice_to, kept_count. destruct (0 <=? k)%Z; rewrite length_firstn; lia.
Qed.

Lemma encode_row_length (S : Sorter) (k : Z) (x : row) :
  length (encode_row S k x) = (2 * kept_count k (length x))%nat.
Proof.
  unfold encode_row, sort_desc.
  rewrite length_app, length_map, !slice_to_length, length_map.
  rewrite argsort_length, softmax_length. lia.
Qed.

Lemma encode_lift (S : Sorter) (topk : Z) (P : row -> row -> Prop)
    (t : tensor3 R) :
  (forall b x, In b t -> In x b -> P x (encode_row S topk x)) ->
  exists enc, encode_forward_response_tensor S t topk = Returned enc
              /\ Forall2 (Forall2 P) t enc.
Proof.
  intros H. exists (map (map (encode_row S topk)) t).
  split; [apply encode_by_rows|].
  apply Forall2_map_same. intros b Hb.
  apply Forall2_map_same. intros x Hx. now apply (H b).
Qed.

Lemma last_dim_In {A : Type} (V : nat) (t : tensor3 A) (b : list (list A))
    (x : list A) :
  last_dim V t -> In b t -> In x b -> length x = V.
Proof.
  intros Ht Hb Hx. unfold last_dim in Ht. rewrite Forall_forall in Ht.
  specialize (Ht b Hb). rewrite Forall_forall in Ht. now apply Ht.
Qed.

(** ** The sample row [[1; 0]] *)

Lemma div_le_bound (a b c : R) : 0 < b -> a <= c * b -> a / b <= c.
Proof.
  intros Hb H. apply (Rmult_le_reg_r b); [assumption|].
  unfold Rdiv. rewrite Rmult_assoc, Rinv_l by lra. lra.
Qed.

Lemma div_gt_bound (a b c : R) : 0 < b -> c * b < a -> c < a / b.
Proof.
  intros Hb H. apply (Rmult_lt_reg_r b); [assumption|].
  unfold Rdiv. rewrite Rmult_assoc, Rinv_l by lra. lra.
Qed.

Lemma div_lt_bound (a b c : R) : 0 < b -> a < c * b -> a / b < c.
Proof.
  intros Hb H. apply (Rmult_lt_reg_r b); [assumption|].
  unfold Rdiv. rewrite Rmult_assoc, Rinv_l by lra. lra.
Qed.

Lemma exp_1_bounds : 2 < exp 1 <= 3.
Proof.
  split; [|apply exp_le_3].
  pose proof (exp_ineq1 1 ltac:(lra)). lra.
Qed.

Lemma softmax_10_entries :
  1 / 2 < nth 0 (softmax [1; 0]) 0 <= 3 / 4
  /\ 0 < nth 1 (softmax [1; 0]) 0 < 1 / 2.
Proof.
  pose proof exp_1_bounds as He. simpl. rewrite exp_0.
  repeat split.
  - apply div_gt_bound; lra.
  - apply div_le_bound; lra.
  - apply Rdiv_lt_0_compat; lra.
  - apply div_lt_bound; lra.
Qed.

(** Whatever the sorter, the one id kept of [[1; 0]] is id 0. *)
Lemma kept_one_of_10 (S : Sorter) : kept S 1 (softmax [1; 0]) = [0%nat].
Proof.
  pose proof (kept_length S 1 (softmax [1; 0])) as Hl.
  pose proof (kept_range S 1 (softmax [1; 0])) as Hr.
  destruct (kept S 1 (softmax [1; 0])) as [|i [|? ?]] eqn:E;
    try discriminate Hl.
  inversion Hr as [|? ? Hi _]; subst. simpl in Hi.
  destruct i as [|[|i]]; [reflexivity| |lia].
  exfalso.
  assert (H : nth 0 (softmax [1; 0]) 0 <= nth 1 (softmax [1; 0]) 0).
  { apply (kept_largest S 1); [rewrite E; now left|simpl; lia|].
    rewrite E. intros [H|[]]. discriminate H. }
  pose proof softmax_10_entries. lra.
Qed.

(** Encoding then decoding one position, through the tensor functions. *)
Definition roundtrip (S : Sorter) (x : row) (topk : Z)
    : outcome (tensor3 xreal) :=
  enc <- encode_forward_response_tensor S [[x]] topk ;;
  decode_forward_response_tensor enc (length x) topk.

Lemma roundtrip_decoded (S : Sorter) (x : row) (k : nat) :
  (k <= length x)%nat ->
  roundtrip S x (Z.of_nat k) = Returned [[decoded S x k]].
Proof.
  intros Hk. unfold roundtrip. rewrite encode_by_rows. cbn [bind].
  rewrite decode_by_rows. cbn [map mapM].
  rewrite roundtrip_row by assumption. reflexivity.
Qed.

Lemma mass_tolerance (k V : nat) :
  (k <= V)%nat -> (Z.of_nat V < 2 ^ 63)%Z -> (INR k + 1) * 1e-64 <= 1e-6.
Proof.
  intros Hk HV. apply le_INR in Hk. apply IZR_lt in HV.
  rewrite <- INR_IZR_INZ in HV.
  change (2 ^ 63)%Z with 9223372036854775808%Z in HV. lra.
Qed.

(** ** Encoded positions *)

(** The two blocks of an encoded position, for a valid [topk]. *)
Lemma encode_row_blocks (S : Sorter) (k : nat) (x : row) :
  (k <= length x)%nat ->
  slice_to (Z.of_nat k) (encode_row S (Z.of_nat k) x)
  = map (fun i => nth i (softmax x) 0) (kept S k (softmax x))
  /\ slice_from (Z.of_nat k) (encode_row S (Z.of_nat k) x)
     = map INR (kept S k (softmax x)).
Proof.
  intros Hk. rewrite encode_row_kept.
  assert (Hl : length (map (fun i => nth i (softmax x) 0)
                           (kept S k (softmax x))) = k).
  { rewrite length_map. now apply idx_length. }
  split.
  - rewrite <- Hl at 1. apply slice_to_app_exact.
  - rewrite <- Hl at 1. apply slice_from_app_exact.
Qed.

(** ** Decoding a given encoded position *)

Lemma decode_position (V k : nat) (vs : row) (idx : list nat) :
  length vs = k -> length idx = k ->
  Forall (fun i => (i < V)%nat) idx ->
  decode_forward_response_tensor [[vs ++ map INR idx]] V (Z.of_nat k)
  = Returned [[writes (repeat (xlog (remainder_floor V (Z.of_nat k) vs)) V) idx
                      (map (fun v => xlog (Fin (v + 1e-64))) vs)]].
Proof.
  intros Hv Hi Hr. rewrite decode_by_rows. cbn [mapM].
  rewrite decode_row_wf by assumption. reflexivity.
Qed.

End TopK.

Import TopK.

(** * Tokenizer equivalence *)

Module TokenizerEquivalence.

(** One token of an encoding: [(token_id, char_start, char_end)]. *)
Definition token : Type := (nat * nat * nat)%type.

Definition token_eqb (a b : token) : bool :=
  let '(i, s, e) := a in
  let '(i', s', e') := b in
  (Nat.eqb i i' && Nat.eqb s s' && Nat.eqb e e')%bool.

Fixpoint tokens_eqb (l l' : list token) : bool :=
  match l, l' with
  | [], [] => true
  | a :: l, b :: l' => (token_eqb a b && tokens_eqb l l')%bool
  | _, _ => false
  end.

Lemma token_eqb_spec (a b : token) : token_eqb a b = true <-> a = b.
Proof.
  destruct a as [[i s] e], b as [[i' s'] e']. simpl.
  rewrite !andb_true_iff, !Nat.eqb_eq. split.
  - intros [[-> ->] ->]. reflexivity.
  - intros [= -> -> ->]. auto.
Qed.

Lemma tokens_eqb_spec (l l' : list token) : tokens_eqb l l' = true <-> l = l'.
Proof.
  revert l'. induction l as [|a l IH]; intros [|b l']; simpl;
    try (split; [discriminate|discriminate]); [tauto|].
  rewrite andb_true_iff, token_eqb_spec, IH. split.
  - intros [-> ->]. reflexivity.
  - intros [= -> ->]. auto.
Qed.

Section Checker.

(** The tokenizer capability of the data model: an opaque value with its
    vocabulary, its merge rules, and
    [encode(text) -> ordered sequence of (token_id, char_start, char_end)]. *)
Variable Tokenizer : Type.
Variable vocabulary : Tokenizer -> list string.
Variable merge_rules : Tokenizer -> list (string * string).
Variable encode : Tokenizer -> string -> list token.

(** The probe strings of the checker. *)
Variable probes : list string.

(** Modelled from the spec: [check_tokenizer_equivalence] is defined in
    [bittensor.utils.tokenizer_utils], which is not among the sources (the
    test imports and calls it).  Following the component design, it is true
    iff the two tokenizers produce token-for-token identical output on every
    probe string. *)
Definition check_tokenizer_equivalence (A B : Tokenizer) : bool :=
  forallb (fun s => tokens_eqb (encode A s) (encode B s)) probes.

Definition structurally_different (A B : Tokenizer) : Prop :=
  vocabulary A <> vocabulary B \/ merge_rules A <> merge_rules B.

Lemma check_true_iff (A B : Tokenizer) :
  check_tokenizer_equivalence A B = true
  <-> forall s, In s probes -> encode A s = encode B s.
Proof.
  unfold check_tokenizer_equivalence. rewrite forallb_forall.
  split; intros H s Hs; apply tokens_eqb_spec; now apply H.
Qed.

Lemma check_false_iff (A B : Tokenizer) :
  check_tokenizer_equivalence A B = false
  <-> exists s, In s probes /\ encode A s <> encode B s.
Proof.
  rewrite <- not_true_iff_false, check_true_iff. split.
  - intros H. induction probes as [|p ps IH].
    + exfalso. apply H. intros s [].
    + destruct (tokens_eqb (encode A p) (encode B p)) eqn:E.
      * apply tokens_eqb_spec in E.
        destruct IH as (s & Hs & Hne).
        { intros Hall. apply H. intros s [<-|Hs]; [exact E|now apply Hall]. }
        exists s. split; [now right|exact Hne].
      * exists p. split; [now left|].
        intros Heq. apply tokens_eqb_spec in Heq. congruence.
  - intros (s & Hs & Hne) Hall. apply Hne. now apply Hall.
Qed.

End Checker.

(** A whole-word tokenizer, given by its vocabulary: a text is one token,
    whose id is the position of the text in the vocabulary, or the size of
    the vocabulary when the text is unknown. *)
Fixpoint index_of (s : string) (vocab : list string) : nat :=
  match vocab with
  | [] => 0
  | w :: vocab' => if String.eqb s w then 0 else Datatypes.S (index_of s vocab')
  end.

Definition word_encode (vocab : list string) (s : string) : list token :=
  [(index_of s vocab, 0%nat, String.length s)].

End TokenizerEquivalence.

Import TokenizerEquivalence.

(** * What binary32 tensors change

    The tensors of the program hold binary32 numbers: [torch.ones] and
    [torch.softmax] return that type for the float tensors they are given.
    Two effects of the type are made explicit here, next to the exact
    functions above: a scalar literal is converted to the type of the tensor
    it meets, and a result too small for the type becomes zero.  Rounding of
    the significand is not modelled. *)

Module Binary32.

(** The smallest positive binary32 number, [2^-149]. *)
Definition min_subnormal : R := / 2 ^ 149.

(** Conversion to binary32 as far as underflow goes: rounding to nearest, a
    number whose magnitude is at most half the smallest positive number
    becomes zero; any other number is left as it is. *)
Definition underflow (x : R) : R :=
  if Rle_dec (Rabs x) (min_subnormal / 2) then 0 else x.

(** *** The decoder with the literal as a parameter *)

Definition remainder_floor_with (eps : R) (vocab_size : nat) (topk : Z)
    (topk_values : row) : xreal :=
  let topk_pmass := Rsum topk_values in
  let remainder_pmass := clamp (1 - topk_pmass) eps 1 in
  div_int remainder_pmass (Z.of_nat vocab_size - topk).

Definition decode_row_with (eps : R) (vocab_size : nat) (topk : Z)
    (encoded_probs : row) : outcome (list xreal) :=
  let topk_values := slice_to topk encoded_probs in
  let topk_indices := map to_long (slice_from topk encoded_probs) in
  let floor := remainder_floor_with eps vocab_size topk topk_values in
  let logits := map (fun one => xscale one (xlog floor)) (repeat 1 vocab_size) in
  scatter_row logits topk_indices
              (map (fun v => xlog (Fin (v + eps))) topk_values).

(** [decode_forward_response_tensor] with [eps] for both occurrences of the
    literal [1e-64]. *)
Definition decode_with (eps : R) (forward_response_tensor : tensor3 R)
    (vocab_size : nat) (topk : Z) : outcome (tensor3 xreal) :=
  let encoded_probs := forward_response_tensor in
  let topk_values := on_rows (slice_to topk) encoded_probs in
  let topk_indices :=
    on_rows (map to_long) (on_rows (slice_from topk) encoded_probs) in
  let topk_pmass := on_rows Rsum topk_values in
  let remainder_pmass :=
    map (map (fun m => clamp (1 - m) eps 1)) topk_pmass in
  let remainder_floor :=
    map (map (fun m => div_int m (Z.of_nat vocab_size - topk))) remainder_pmass in
  let ones := map (map (fun _ : row => repeat 1 vocab_size)) encoded_probs in
  let logits :=
    map (fun bl => map (fun rl => map (fun one => xscale one (xlog (snd rl)))
                                      (fst rl))
                       (combine (fst bl) (snd bl)))
        (combine ones remainder_floor) in
  scatter_ logits topk_indices
           (on_rows (map (fun v => xlog (Fin (v + eps)))) topk_values).

(** The decoder on binary32 tensors: the literal is converted first. *)
Definition decode_binary32 (forward_response_tensor : tensor3 R)
    (vocab_size : nat) (topk : Z) : outcome (tensor3 xreal) :=
  decode_with (underflow 1e-64) forward_response_tensor vocab_size topk.

(** *** The encoder with the normalisation as a parameter *)

Definition encode_row_with (normalise : row -> row) (S : Sorter) (topk : Z)
    (logits : row) : row :=
  let probs := normalise logits in
  let (values, indices) := sort_desc S probs in
  let topk_values := slice_to topk values in
  let topk_indices := slice_to topk indices in
  topk_values ++ map INR topk_indices.

(** [encode_forward_response_tensor] with [normalise] for [torch.softmax]. *)
Definition encode_with (normalise : row -> row) (S : Sorter)
    (forward_response_tensor : tensor3 R) (topk : Z) : outcome (tensor3 R) :=
  let logits := forward_response_tensor in
  let probs := on_rows normalise logits in
  let sorted := on_rows (sort_desc S) probs in
  let values := map (map fst) sorted in
  let indices := map (map snd) sorted in
  let topk_values := on_rows (slice_to topk) values in
  let topk_indices := on_rows (slice_to topk) indices in
  let encoded_probs := cat topk_values (on_rows (map INR) topk_indices) in
  Returned encoded_probs.

(** The largest entry of a row. *)
Definition row_max (x : row) : R := fold_right Rmax (hd 0 x) x.

(** [torch.softmax] on a binary32 row: the exponentials of the entries less
    the largest entry, each divided by their sum; an exponential or a
    quotient too small for the type is zero. *)
Definition softmax_binary32 (x : row) : row :=
  let m := row_max x in
  let e := map (fun v => underflow (exp (v - m))) x in
  map (fun ei => underflow (ei / Rsum e)) e.

(** The encoder on binary32 tensors. *)
Definition encode_binary32 (S : Sorter) (forward_response_tensor : tensor3 R)
    (topk : Z) : outcome (tensor3 R) :=
  encode_with softmax_binary32 S forward_response_tensor topk.

(** *** The exact functions are instances *)

Lemma decode_with_exact (t : tensor3 R) (V : nat) (topk : Z) :
  decode_with 1e-64 t V topk = decode_forward_response_tensor t V topk.
Proof. reflexivity. Qed.

Lemma encode_with_exact (S : Sorter) (t : tensor3 R) (topk : Z) :
  encode_with softmax S t topk = encode_forward_response_tensor S t topk.
Proof. reflexivity. Qed.

Lemma decode_with_by_rows (eps : R) (t : tensor3 R) (V : nat) (topk : Z) :
  decode_with eps t V topk = mapM (mapM (decode_row_with eps V topk)) t.
Proof.
  unfold decode_with, on_rows.
  rewrite !rows_map_map.
  rewrite combine_map_same, map_map.
  erewrite (map_ext _ (map (fun r => _))).
  2:{ intros b. simpl. rewrite combine_map_same, map_map. simpl. reflexivity. }
  rewrite (scatter_same _ _ _ t). reflexivity.
Qed.

Lemma encode_with_by_rows (normalise : row -> row) (S : Sorter)
    (t : tensor3 R) (topk : Z) :
  encode_with normalise S t topk
  = Returned (map (map (encode_row_with normalise S topk)) t).
Proof.
  unfold encode_with, cat, on_rows. f_equal.
  rewrite !rows_map_map, on_rows2_same. reflexivity.
Qed.

Lemma encode_row_with_kept (normalise : row -> row) (S : Sorter) (k : nat)
    (x : row) :
  encode_row_with normalise S (Z.of_nat k) x
  = map (fun i => nth i (normalise x) 0) (kept S k (normalise x))
    ++ map INR (kept S k (normalise x)).
Proof.
  unfold encode_row_with.
  change (sort_desc S (normalise x))
    with (fst (sort_desc S (normalise x)), argsort S (normalise x)).
  cbv beta iota. rewrite !slice_to_nonneg, kept_values. reflexivity.
Qed.

(** *** Underflow *)

Lemma half_min_subnormal : min_subnormal / 2 = / IZR (2 ^ 150).
Proof.
  replace (IZR (2 ^ 150)) with (2 * 2 ^ 149).
  - unfold min_subnormal. generalize (2 ^ 149). intros p.
    rewrite Rinv_mult. unfold Rdiv. ring.
  - change (2 * 2 ^ 149) with (2 ^ 150). rewrite pow_IZR. reflexivity.
Qed.

Lemma half_min_subnormal_bounds : 1e-64 <= min_subnormal / 2 < 1.
Proof.
  rewrite half_min_subnormal.
  change (2 ^ 150)%Z with 1427247692705959881058285969449495136382746624%Z.
  lra.
Qed.

Lemma underflow_literal : underflow 1e-64 = 0.
Proof.
  unfold underflow. pose proof half_min_subnormal_bounds as H.
  rewrite Rabs_pos_eq by lra.
  destruct (Rle_dec 1e-64 (min_subnormal / 2)); [reflexivity|lra].
Qed.

Lemma underflow_one : underflow 1 = 1.
Proof.
  unfold underflow. pose proof half_min_subnormal_bounds as H.
  rewrite Rabs_pos_eq by lra.
  destruct (Rle_dec 1 (min_subnormal / 2)); [lra|reflexivity].
Qed.

Lemma underflow_bounds (x : R) : 0 <= x -> 0 <= underflow x <= x.
Proof.
  intros Hx. unfold underflow.
  destruct (Rle_dec (Rabs x) (min_subnormal / 2)); lra.
Qed.

Lemma underflow_small (x : R) :
  0 <= x <= min_subnormal / 2 -> underflow x = 0.
Proof.
  intros Hx. unfold underflow. rewrite Rabs_pos_eq by lra.
  destruct (Rle_dec x (min_subnormal / 2)); [reflexivity|lra].
Qed.

(** *** The binary32 softmax *)

Lemma softmax_binary32_length (x : row) :
  length (softmax_binary32 x) = length x.
Proof. unfold softmax_binary32. now rewrite !length_map. Qed.

Lemma Rinv_nonneg (c : R) : 0 <= c -> 0 <= / c.
Proof.
  intros [H|<-]; [left; now apply Rinv_0_lt_compat|].
  rewrite Rinv_0. lra.
Qed.

Lemma Rsum_map_le {A : Type} (f g : A -> R) (l : list A) :
  (forall a, In a l -> f a <= g a) -> Rsum (map f l) <= Rsum (map g l).
Proof.
  induction l as [|a l IH]; intros H; simpl; [lra|].
  fold (Rsum (map f l)). fold (Rsum (map g l)).
  assert (f a <= g a) by (apply H; now left).
  assert (Rsum (map f l) <= Rsum (map g l)) by (apply IH; intros; apply H; now right).
  lra.
Qed.

Lemma underflowed_exps_nonneg (m : R) (x : row) :
  Forall (fun e => 0 <= e) (map (fun v => underflow (exp (v - m))) x).
Proof.
  apply Forall_map, Forall_forall. intros v _.
  apply underflow_bounds. left. apply exp_pos.
Qed.

Lemma softmax_binary32_nonneg (x : row) :
  Forall (fun p => 0 <= p) (softmax_binary32 x).
Proof.
  unfold softmax_binary32. apply Forall_map.
  pose proof (underflowed_exps_nonneg (row_max x) x) as He.
  eapply Forall_impl; [|exact He]. intros e Hpos.
  apply underflow_bounds. apply Rmult_le_pos; [exact Hpos|].
  apply Rinv_nonneg, Rsum_nonneg, He.
Qed.

Lemma softmax_binary32_sum (x : row) : Rsum (softmax_binary32 x) <= 1.
Proof.
  unfold softmax_binary32.
  set (e := map (fun v => underflow (exp (v - row_max x))) x).
  assert (He : Forall (fun v => 0 <= v) e)
    by apply underflowed_exps_nonneg.
  pose proof (Rsum_nonneg e He) as Hs.
  eapply Rle_trans.
  - apply (Rsum_map_le _ (fun ei => ei / Rsum e)). intros a Ha.
    rewrite Forall_forall in He.
    apply underflow_bounds. apply Rmult_le_pos; [now apply He|].
    now apply Rinv_nonneg.
  - rewrite Rsum_map_scale. destruct Hs as [Hs|Hs].
    + right. field. lra.
    + rewrite <- Hs. unfold Rdiv. rewrite Rmult_0_l. lra.
Qed.

Lemma kept_values_sum_le_nonneg (S : Sorter) (k : nat) (p : row) :
  Forall (fun v => 0 <= v) p ->
  Rsum (map (fun i => nth i p 0) (kept S k p)) <= Rsum p.
Proof.
  intros Hp. rewrite <- kept_values.
  change (fst (sort_desc S p)) with (map (fun i => nth i p 0) (argsort S p)).
  eapply Rle_trans; [apply Rsum_firstn_le|].
  - apply Forall_forall. intros v Hv.
    apply in_map_iff in Hv as (i & <- & Hi).
    rewrite Forall_forall in Hp.
    apply Hp, nth_In. now apply (argsort_In S) in Hi.
  - erewrite Rsum_perm; [|apply Permutation_map, (argsort_perm S)].
    rewrite <- list_by_positions. lra.
Qed.

(** *** Where nothing underflows *)

Lemma softmax_shift (c : R) (x : row) :
  softmax (map (fun v => v + c) x) = softmax x.
Proof.
  unfold softmax. rewrite map_map. apply map_ext_in. intros a Ha.
  assert (Hs : Rsum (map exp (map (fun v => v + c) x))
               = exp c * Rsum (map exp x)).
  { clear. induction x as [|b x IH]; simpl; [lra|].
    fold (Rsum (map exp (map (fun v => v + c) x))). fold (Rsum (map exp x)).
    rewrite IH, exp_plus. lra. }
  rewrite Hs, exp_plus.
  assert (0 < Rsum (map exp x)).
  { apply Rsum_exp_pos. intros ->. contradiction. }
  pose proof (exp_pos c). field. lra.
Qed.

Lemma underflow_large (y : R) : min_subnormal / 2 < y -> underflow y = y.
Proof.
  intros H. unfold underflow. pose proof half_min_subnormal_bounds.
  rewrite Rabs_pos_eq by lra.
  destruct (Rle_dec y (min_subnormal / 2)); [lra|reflexivity].
Qed.

(** When no exponential and no quotient is too small for the type, the
    binary32 softmax is the exact one. *)
Lemma softmax_binary32_exact (x : row) :
  Forall (fun v => min_subnormal / 2 < exp (v - row_max x)) x ->
  Forall (fun q => min_subnormal / 2 < q) (softmax x) ->
  softmax_binary32 x = softmax x.
Proof.
  intros He Hq. rewrite <- (softmax_shift (- row_max x) x) in Hq |- *.
  unfold softmax_binary32.
  assert (E : map (fun v => underflow (exp (v - row_max x))) x
              = map exp (map (fun v => v + - row_max x) x)).
  { rewrite map_map. apply map_ext_in. intros v Hv.
    rewrite Forall_forall in He. now apply underflow_large, He. }
  rewrite E. unfold softmax at 1.
  rewrite (map_map exp (fun ei => underflow (ei / _))).
  apply map_ext_in. intros y Hy.
  apply underflow_large. rewrite Forall_forall in Hq. apply Hq.
  unfold softmax. apply in_map_iff. exists y. split; [reflexivity|exact Hy].
Qed.

(** *** The row [[0; -200]] *)

Lemma exp_nat (n : nat) : exp (INR n) = exp 1 ^ n.
Proof.
  induction n as [|n IH]; [simpl; apply exp_0|].
  rewrite S_INR, exp_plus, IH. simpl. ring.
Qed.

Lemma exp_minus_200_underflows : 0 <= exp (-200) <= min_subnormal / 2.
Proof.
  split; [left; apply exp_pos|].
  rewrite half_min_subnormal.
  replace (-200) with (- INR 200) by (rewrite INR_IZR_INZ; simpl; lra).
  rewrite exp_Ropp, exp_nat.
  assert (H2 : 2 ^ 200 <= exp 1 ^ 200).
  { apply pow_incr. pose proof exp_1_bounds. lra. }
  assert (H3 : IZR (2 ^ 150) <= 2 ^ 200).
  { replace (2 ^ 200) with (IZR (2 ^ 200)).
    - apply IZR_le. apply Z.pow_le_mono_r; lia.
    - change (2 ^ 200)%Z with (2 ^ Z.of_nat 200)%Z. now rewrite <- pow_IZR. }
  assert (H1 : 0 < IZR (2 ^ 150)) by (apply IZR_lt; reflexivity).
  apply Rinv_le_contravar; lra.
Qed.

Lemma softmax_binary32_underflows : softmax_binary32 [0; -200] = [1; 0].
Proof.
  unfold softmax_binary32.
  assert (Hm : row_max [0; -200] = 0).
  { unfold row_max. simpl. unfold Rmax.
    destruct (Rle_dec (-200) 0); [|lra].
    destruct (Rle_dec 0 0); lra. }
  rewrite Hm. cbn [map].
  replace (0 - 0) with 0 by ring. replace (-200 - 0) with (-200) by ring.
  rewrite exp_0, underflow_one.
  rewrite (underflow_small (exp (-200)) exp_minus_200_underflows).
  cbn [Rsum fold_right].
  replace (1 / (1 + (0 + 0))) with 1 by field.
  replace (0 / (1 + (0 + 0))) with 0 by field.
  rewrite underflow_one.
  rewrite (underflow_small 0) by (pose proof half_min_subnormal_bounds; lra).
  reflexivity.
Qed.

Lemma insertion_argsort_10 : insertion_argsort [1; 0] = [0; 1]%nat.
Proof.
  unfold insertion_argsort, isort_desc. simpl.
  destruct (Rle_dec 0 1); [reflexivity|lra].
Qed.

End Binary32.

Import Binary32.
(** * Claims *)

(** C1: for every input tensor of shape [[batch, sequence_len, V]] (any real
    rows, so in particular probability vectors summing to 1), every valid
    [1 <= k <= V] and a vocabulary size that fits a tensor dimension, encoding
    and then decoding returns, and in every position the decoded log-space row,
    read back through the exponential, sums to 1 within 1e-6. *)
Theorem decoded_mass_near_one (S : Sorter) (t : tensor3 R) (V k : nat) :
  last_dim V t -> (1 <= k <= V)%nat -> (Z.of_nat V < 2 ^ 63)%Z ->
  exists enc dec,
    encode_forward_response_tensor S t (Z.of_nat k) = Returned enc
    /\ decode_forward_response_tensor enc V (Z.of_nat k) = Returned dec
    /\ Forall2 (Forall2 (fun (_ : row) out =>
                  exists s, xsum (map xexp out) = Fin s
                            /\ Rabs (s - 1) <= 1e-6))
               t dec.
Proof.
  intros Ht Hk HV. apply roundtrip_lift; [|exact Ht].
  intros x Hx. subst V. exists (decoded S x k).
  split; [apply roundtrip_row; lia|].
  destruct (decoded_mass S x k) as (s & Hs & Hb); [lia| |].
  - intros ->. simpl in Hk. lia.
  - exists s. split; [exact Hs|].
    eapply Rle_trans; [exact Hb|]. apply (mass_tolerance k (length x)); [lia|exact HV].
Qed.

Lemma decoded_mass_near_one_witness :
  last_dim 2 [[[0; 0]]] /\ (1 <= 1 <= 2)%nat /\ (Z.of_nat 2 < 2 ^ 63)%Z
  /\ exists enc dec,
       encode_forward_response_tensor insertion_sorter [[[0; 0]]] 1
       = Returned enc
       /\ decode_forward_response_tensor enc 2 1 = Returned dec
       /\ Forall2 (Forall2 (fun (_ : row) out =>
                     exists s, xsum (map xexp out) = Fin s
                               /\ Rabs (s - 1) <= 1e-6))
                  [[[0; 0]]] dec.
Proof.
  assert (H1 : last_dim 2 [[[0; 0]]]) by (repeat constructor).
  assert (H2 : (1 <= 1 <= 2)%nat) by lia.
  assert (H3 : (Z.of_nat 2 < 2 ^ 63)%Z) by reflexivity.
  split; [exact H1|]. split; [exact H2|]. split; [exact H3|].
  exact (decoded_mass_near_one insertion_sorter [[[0; 0]]] 2 1 H1 H2 H3).
Defined.







(** C4, as the code has it: the encoder has no check on [topk] and returns for
    every integer [topk].  Each position of the result holds
    [2 * kept_count topk vocab_size] entries: all [vocab_size] pairs when
    [topk] exceeds the vocabulary, none when [topk] is zero, and for a negative
    [topk] the pairs that remain after the last [|topk|] are dropped. *)
Theorem encode_never_raises (S : Sorter) (t : tensor3 R) (topk : Z) :
  exists enc,
    encode_forward_response_tensor S t topk = Returned enc
    /\ Forall2 (Forall2 (fun x e =>
                  length e = (2 * kept_count topk (length x))%nat
                  /\ ((Z.of_nat (length x) < topk)%Z ->
                      length e = (2 * length x)%nat)))
               t enc.
Proof.
  apply encode_lift. intros b x _ _.
  rewrite encode_row_length. split; [reflexivity|].
  intros Hk. unfold kept_count. destruct (Z.leb_spec 0 topk); lia.
Qed.

(** C4 fails as stated: with a vocabulary of two entries the encoder returns
    for [topk = 3], for [topk = 0] and for [topk = -1]; no [InvalidK] is
    raised. *)
Lemma encode_accepts_invalid_k :
  encode_forward_response_tensor insertion_sorter [[[0; 0]]] 3
    <> Raised InvalidK
  /\ encode_forward_response_tensor insertion_sorter [[[0; 0]]] 0
    <> Raised InvalidK
  /\ encode_forward_response_tensor insertion_sorter [[[0; 0]]] (-1)
    <> Raised InvalidK.
Proof.
  rewrite !encode_by_rows. repeat split; discriminate.
Qed.




(** C6: on a tensor of shape [[batch, sequence_len, V]] and for
    [0 <= k <= V] the encoder returns, without touching its input, a tensor
    of shape [[batch, sequence_len, 2k]] computed position by position: the
    softmax of the position is sorted in descending order, and the position of
    the result is the first [k] sorted values followed by the first [k]
    sorted indices, each index an integer-valued real. *)
Theorem encode_wire_format (S : Sorter) (t : tensor3 R) (V k : nat) :
  last_dim V t -> (k <= V)%nat ->
  exists enc,
    encode_forward_response_tensor S t (Z.of_nat k) = Returned enc
    /\ enc = map (map (encode_row S (Z.of_nat k))) t
    /\ last_dim (2 * k) enc
    /\ Forall2 (Forall2 (fun x e =>
         let values := fst (sort_desc S (softmax x)) in
         let indices := snd (sort_desc S (softmax x)) in
         Permutation indices (seq 0 V)
         /\ values = map (fun i => nth i (softmax x) 0) indices
         /\ descending values
         /\ e = firstn k values ++ map INR (firstn k indices)
         /\ length (firstn k values) = k
         /\ length (firstn k indices) = k
         /\ descending (firstn k e)))
         t enc.
Proof.
  intros Ht Hk. exists (map (map (encode_row S (Z.of_nat k))) t).
  split; [apply encode_by_rows|]. split; [reflexivity|].
  assert (Hrow : forall b x, In b t -> In x b ->
            length (kept S k (softmax x)) = k /\ length x = V).
  { intros b x Hb Hx. pose proof (last_dim_In V t b x Ht Hb Hx) as Hx'.
    split; [apply idx_length; lia|exact Hx']. }
  split.
  - apply Forall_map, Forall_forall. intros b Hb.
    apply Forall_map, Forall_forall. intros x Hx.
    destruct (Hrow b x Hb Hx) as [Hl HV].
    rewrite encode_row_length. unfold kept_count.
    destruct (Z.leb_spec 0 (Z.of_nat k)); lia.
  - apply Forall2_map_same. intros b Hb.
    apply Forall2_map_same. intros x Hx.
    destruct (Hrow b x Hb Hx) as [Hl HV]. cbn zeta. simpl fst. simpl snd.
    split; [rewrite <- HV, <- (softmax_length x); apply argsort_perm|].
    split; [reflexivity|]. split; [apply argsort_desc|].
    assert (Hv : firstn k (map (fun i => nth i (softmax x) 0)
                               (argsort S (softmax x)))
                 = map (fun i => nth i (softmax x) 0) (kept S k (softmax x)))
      by apply (kept_values S k (softmax x)).
    rewrite Hv. fold (kept S k (softmax x)).
    split; [apply encode_row_kept|].
    split; [now rewrite length_map|]. split; [exact Hl|].
    rewrite encode_row_kept, firstn_app, length_map, Hl, Nat.sub_diag.
    rewrite firstn_O, app_nil_r.
    rewrite <- Hl at 1. rewrite <- (length_map (fun i => nth i (softmax x) 0)).
    rewrite firstn_all. apply kept_values_descending.
Qed.

Lemma encode_wire_format_witness :
  last_dim 2 [[[0; 0]]] /\ (1 <= 2)%nat
  /\ exists enc,
    encode_forward_response_tensor insertion_sorter [[[0; 0]]] (Z.of_nat 1)
    = Returned enc
    /\ enc = map (map (encode_row insertion_sorter (Z.of_nat 1))) [[[0; 0]]]
    /\ last_dim (2 * 1) enc
    /\ Forall2 (Forall2 (fun x e =>
         let values := fst (sort_desc insertion_sorter (softmax x)) in
         let indices := snd (sort_desc insertion_sorter (softmax x)) in
         Permutation indices (seq 0 2)
         /\ values = map (fun i => nth i (softmax x) 0) indices
         /\ descending values
         /\ e = firstn 1 values ++ map INR (firstn 1 indices)
         /\ length (firstn 1 values) = 1%nat
         /\ length (firstn 1 indices) = 1%nat
         /\ descending (firstn 1 e)))
         [[[0; 0]]] enc.
Proof.
  assert (H1 : last_dim 2 [[[0; 0]]]) by (repeat constructor).
  assert (H2 : (1 <= 2)%nat) by lia.
  split; [exact H1|]. split; [exact H2|].
  exact (encode_wire_format insertion_sorter [[[0; 0]]] 2 1 H1 H2).
Defined.

(** In exact arithmetic, where the literal [1e-64] is a positive number, the
    guard of the decoder holds: for an encoded position of [k < V]
    non-negative values followed by [k] vocabulary ids, the decoder returns,
    and every entry of the returned log-space row is finite. *)
Lemma decode_output_finite (V k : nat) (vs : row) (idx : list nat) :
  length vs = k -> length idx = k ->
  Forall (fun v => 0 <= v) vs ->
  Forall (fun i => (i < V)%nat) idx -> (k < V)%nat ->
  exists out,
    decode_forward_response_tensor [[vs ++ map INR idx]] V (Z.of_nat k)
    = Returned [[out]]
    /\ Forall is_finite out
    /\ 1e-64 <= clamp (1 - Rsum vs) 1e-64 1
    /\ (exists f, remainder_floor V (Z.of_nat k) vs = Fin f /\ 0 < f)
    /\ Forall (fun v => 0 < v + 1e-64) vs.
Proof.
  intros Hv Hi Hpos Hr Hk. eexists.
  split; [now apply decode_position|].
  assert (Hvs : Forall (fun v => 0 < v + 1e-64) vs).
  { eapply Forall_impl; [|exact Hpos]. intros v Hv0. simpl in Hv0. lra. }
  split; [|split; [apply clamp_bounds|split; [|exact Hvs]]].
  - apply writes_Forall.
    + apply Forall_forall. intros y Hy. apply repeat_spec in Hy. subst y.
      rewrite floor_log_lt by assumption. exact I.
    + apply Forall_map. eapply Forall_impl; [|exact Hvs].
      intros v Hv0. rewrite xlog_pos by assumption. exact I.
  - exists (floor_value V k vs).
    split; [now apply remainder_floor_lt|now apply floor_value_pos].
Qed.

Lemma xlog_zero : xlog (Fin 0) = NInf.
Proof.
  simpl. destruct (Rlt_dec 0 0); [lra|reflexivity].
Qed.

Lemma clamp_at_zero (x : R) : x <= 0 -> clamp x 0 1 = 0.
Proof.
  intros H. unfold clamp, Rmin, Rmax.
  destruct (Rle_dec x 0); destruct (Rle_dec _ 1); lra.
Qed.

(** C7: on binary32 tensors the literal [1e-64] is zero and the guard of the
    decoder is lost.  The encoded position with the values 1 and 0 at the ids
    0 and 1 of a vocabulary of three meets the conditions of the claim
    (finite input, values that are not negative, [k < V]); the decoder
    returns [-inf] at id 1, whose value is 0, and at id 2, which holds the
    floor. *)
Theorem decode_binary32_reaches_neg_inf :
  underflow 1e-64 = 0
  /\ Forall (fun v => 0 <= v) [1; 0] /\ (2 < 3)%nat
  /\ decode_binary32 [[[1; 0] ++ map INR [0; 1]%nat]] 3 (Z.of_nat 2)
     = Returned [[[Fin 0; NInf; NInf]]].
Proof.
  split; [apply underflow_literal|].
  split; [repeat constructor; lra|]. split; [lia|].
  unfold decode_binary32. rewrite underflow_literal, decode_with_by_rows.
  cbn [mapM]. unfold decode_row_with.
  change (Z.of_nat 2) with (Z.of_nat (length [1; 0])).
  rewrite !slice_to_app_exact, slice_from_app_exact, map_to_long_INR.
  rewrite ones_scaled.
  assert (Hf : xlog (remainder_floor_with 0 3 (Z.of_nat (length [1; 0])) [1; 0])
               = NInf).
  { unfold remainder_floor_with, div_int. cbn [length Rsum fold_right].
    rewrite clamp_at_zero by lra.
    replace (0 / IZR (Z.of_nat 3 - Z.of_nat 2)) with 0
      by (unfold Rdiv; ring).
    change (Z.of_nat 3 - Z.of_nat 2 =? 0)%Z with false. cbv iota.
    apply xlog_zero. }
  rewrite Hf.
  rewrite scatter_row_writes by (repeat constructor; simpl; lia).
  cbn [writes update repeat map]. cbn [bind].
  replace (1 + 0) with 1 by ring. replace (0 + 0) with 0 by ring.
  rewrite xlog_zero, xlog_pos by lra. now rewrite ln_1.
Qed.







(** C10: for every input tensor of shape [[batch, sequence_len, V]] and
    [0 <= k <= V], the index block of every encoded position lists [k]
    pairwise distinct vocabulary ids below [V]; decoding writes exactly the
    entries at those ids, and the [V - k] remaining ids all hold the
    logarithm of the uniform floor. *)
Theorem encoded_ids_distinct (S : Sorter) (t : tensor3 R) (V k : nat) :
  last_dim V t -> (k <= V)%nat ->
  exists enc dec,
    encode_forward_response_tensor S t (Z.of_nat k) = Returned enc
    /\ decode_forward_response_tensor enc V (Z.of_nat k) = Returned dec
    /\ Forall2 (Forall2 (fun x out =>
         let e := encode_row S (Z.of_nat k) x in
         exists ids,
           slice_from (Z.of_nat k) e = map INR ids
           /\ ids = firstn k (snd (sort_desc S (softmax x)))
           /\ length ids = k /\ NoDup ids
           /\ Forall (fun i => (i < V)%nat) ids
           /\ length out = V
           /\ (forall i, In i ids ->
                 nth i out NaN = Fin (ln (nth i (softmax x) 0 + 1e-64)))
           /\ (forall i, (i < V)%nat -> ~ In i ids ->
                 nth i out NaN
                 = xlog (remainder_floor V (Z.of_nat k)
                                         (slice_to (Z.of_nat k) e)))
           /\ Permutation (seq 0 V) (ids ++ others V ids)
           /\ length (others V ids) = (V - k)%nat))
         t dec.
Proof.
  intros Ht Hk. apply roundtrip_lift; [|exact Ht].
  intros x Hx. subst V. exists (decoded S x k).
  split; [now apply roundtrip_row|]. cbn zeta.
  exists (kept S k (softmax x)).
  destruct (encode_row_blocks S k x Hk) as [Hvals Hids].
  assert (Hl : length (kept S k (softmax x)) = k) by now apply idx_length.
  assert (Hr : Forall (fun i => (i < length x)%nat) (kept S k (softmax x)))
    by apply idx_range.
  split; [exact Hids|]. split; [reflexivity|]. split; [exact Hl|].
  split; [apply kept_NoDup|]. split; [exact Hr|].
  split; [apply decoded_length|].
  split; [intros i Hi; now apply decoded_kept|].
  split; [intros i Hi Hn; rewrite Hvals; now apply decoded_other|].
  split; [apply seq_split; [apply kept_NoDup|exact Hr]|].
  rewrite others_length; [now rewrite Hl|apply kept_NoDup|exact Hr].
Qed.

Lemma encoded_ids_distinct_witness :
  last_dim 2 [[[0; 2]]] /\ (1 <= 2)%nat
  /\ exists enc dec,
    encode_forward_response_tensor insertion_sorter [[[0; 2]]] (Z.of_nat 1)
    = Returned enc
    /\ decode_forward_response_tensor enc 2 (Z.of_nat 1) = Returned dec
    /\ Forall2 (Forall2 (fun x out =>
         let e := encode_row insertion_sorter (Z.of_nat 1) x in
         exists ids,
           slice_from (Z.of_nat 1) e = map INR ids
           /\ ids = firstn 1 (snd (sort_desc insertion_sorter (softmax x)))
           /\ length ids = 1%nat /\ NoDup ids
           /\ Forall (fun i => (i < 2)%nat) ids
           /\ length out = 2%nat
           /\ (forall i, In i ids ->
                 nth i out NaN = Fin (ln (nth i (softmax x) 0 + 1e-64)))
           /\ (forall i, (i < 2)%nat -> ~ In i ids ->
                 nth i out NaN
                 = xlog (remainder_floor 2 (Z.of_nat 1)
                                         (slice_to (Z.of_nat 1) e)))
           /\ Permutation (seq 0 2) (ids ++ others 2 ids)
           /\ length (others 2 ids) = (2 - 1)%nat))
         [[[0; 2]]] dec.
Proof.
  assert (H1 : last_dim 2 [[[0; 2]]]) by (repeat constructor).
  assert (H2 : (1 <= 2)%nat) by lia.
  split; [exact H1|]. split; [exact H2|].
  exact (encoded_ids_distinct insertion_sorter [[[0; 2]]] 2 1 H1 H2).
Defined.

(** * Further properties of the codec *)

(** ** Edge values of [topk] and of [vocab_size] *)

Lemma roundtrip_lift_any (S : Sorter) (V : nat) (k_enc k_dec : Z)
    (P : row -> list xreal -> Prop) (t : tensor3 R) :
  (forall b x, In b t -> In x b ->
     exists o, decode_row V k_dec (encode_row S k_enc x) = Returned o
               /\ P x o) ->
  exists enc dec,
    encode_forward_response_tensor S t k_enc = Returned enc
    /\ decode_forward_response_tensor enc V k_dec = Returned dec
    /\ Forall2 (Forall2 P) t dec.
Proof.
  intros Hrow.
  assert (H : exists dec,
             mapM (fun b => mapM (fun x => decode_row V k_dec
                                             (encode_row S k_enc x)) b) t
             = Returned dec /\ Forall2 (Forall2 P) t dec).
  { apply mapM_Forall2, Forall_forall. intros b Hb.
    apply mapM_Forall2, Forall_forall. intros x Hx. now apply (Hrow b). }
  destruct H as (dec & Hdec & HP).
  exists (map (map (encode_row S k_enc)) t), dec.
  split; [apply encode_by_rows|]. split; [|exact HP].
  rewrite decode_by_rows, mapM_map. etransitivity; [|exact Hdec].
  apply mapM_ext. intros b. apply mapM_map.
Qed.

Lemma mapM_raises {A B : Type} (f : A -> outcome B) (l : list A) (a : A)
    (e : error) :
  In a l -> f a = Raised e -> exists e', mapM f l = Raised e'.
Proof.
  intros Hin Ha. induction l as [|b l IH]; [contradiction|].
  simpl. destruct (f b) as [y|e0] eqn:Eb; [|now exists e0].
  destruct Hin as [->|Hin]; [congruence|].
  destruct (IH Hin) as (e' & He'). exists e'. simpl. now rewrite He'.
Qed.

Lemma decode_raises_at (t : tensor3 R) (V : nat) (topk : Z)
    (b : list row) (x : row) (e : error) :
  In b t -> In x b -> decode_row V topk x = Raised e ->
  exists e', decode_forward_response_tensor t V topk = Raised e'.
Proof.
  intros Hb Hx He. rewrite decode_by_rows.
  destruct (mapM_raises (decode_row V topk) b x e Hx He) as (e1 & He1).
  exact (mapM_raises _ t b e1 Hb He1).
Qed.

Lemma encode_row_zero (S : Sorter) (x : row) : encode_row S 0 x = [].
Proof. reflexivity. Qed.

Lemma decode_row_empty (V : nat) :
  (1 <= V)%nat ->
  decode_row V 0 [] = Returned (repeat (Fin (ln (1 / INR V))) V).
Proof.
  intros HV.
  pose proof (decode_row_wf V 0 [] [] eq_refl eq_refl (Forall_nil _)) as H.
  simpl in H. rewrite H. cbn [writes]. f_equal. f_equal.
  change 0%Z with (Z.of_nat 0). rewrite floor_log_lt by lia.
  unfold floor_value. rewrite Nat.sub_0_r.
  rewrite clamp_inside by (simpl; lra). simpl Rsum. now rewrite Rminus_0_r.
Qed.

(** X3: with [topk = 0] every encoded position is empty, and for a
    vocabulary of at least one id the decoder turns each into the uniform
    distribution: [V] entries [log (1 / V)]. *)
Theorem zero_k_decodes_uniform (S : Sorter) (t : tensor3 R) (V : nat) :
  (1 <= V)%nat ->
  exists enc dec,
    encode_forward_response_tensor S t 0 = Returned enc
    /\ Forall (Forall (fun e => e = [])) enc
    /\ decode_forward_response_tensor enc V 0 = Returned dec
    /\ Forall2 (Forall2 (fun (_ : row) out =>
                  out = repeat (Fin (ln (1 / INR V))) V))
               t dec.
Proof.
  intros HV.
  destruct (roundtrip_lift_any S V 0 0
              (fun _ out => out = repeat (Fin (ln (1 / INR V))) V) t)
    as (enc & dec & He & Hd & HP).
  { intros b x _ _. rewrite encode_row_zero. eexists.
    split; [now apply decode_row_empty|reflexivity]. }
  exists enc, dec. split; [exact He|]. split; [|now split].
  rewrite encode_by_rows in He. injection He as <-.
  apply Forall_map, Forall_forall. intros b _.
  apply Forall_map, Forall_forall. intros x _. apply encode_row_zero.
Qed.

Lemma zero_k_decodes_uniform_witness :
  exists enc dec,
    encode_forward_response_tensor insertion_sorter [[[3; 1]]] 0 = Returned enc
    /\ Forall (Forall (fun e => e = [])) enc
    /\ decode_forward_response_tensor enc 4 0 = Returned dec
    /\ Forall2 (Forall2 (fun (_ : row) out =>
                  out = repeat (Fin (ln (1 / INR 4))) 4))
               [[[3; 1]]] dec.
Proof.
  apply (zero_k_decodes_uniform insertion_sorter [[[3; 1]]] 4). lia.
Defined.

(** *** An oversized [topk] on binary32 tensors *)

Lemma softmax_binary32_single (a : R) : softmax_binary32 [a] = [1].
Proof.
  unfold softmax_binary32.
  assert (Hm : row_max [a] = a).
  { unfold row_max. simpl. unfold Rmax. destruct (Rle_dec a a); lra. }
  rewrite Hm. cbn [map]. replace (a - a) with 0 by ring.
  rewrite exp_0, underflow_one. cbn [Rsum fold_right].
  replace (1 / (1 + 0)) with 1 by field. now rewrite underflow_one.
Qed.

Lemma Rsum_ge_member (a : R) (l : list R) :
  Forall (fun v => 0 <= v) l -> In a l -> a <= Rsum l.
Proof.
  induction 1 as [|b l Hb Hl IH]; [contradiction|].
  pose proof (Rsum_nonneg l Hl) as Hs. simpl. fold (Rsum l).
  intros [->|Hin]; [lra|]. specialize (IH Hin). lra.
Qed.

Lemma encode_row_with_all (normalise : row -> row) (S : Sorter) (k : nat)
    (x : row) :
  (length (normalise x) <= k)%nat ->
  encode_row_with normalise S (Z.of_nat k) x
  = map (fun i => nth i (normalise x) 0) (argsort S (normalise x))
    ++ map INR (argsort S (normalise x)).
Proof.
  intros Hk. rewrite encode_row_with_kept. unfold kept.
  rewrite firstn_all2; [reflexivity|]. now rewrite argsort_length.
Qed.

(** The entries of a fully encoded binary32 position sum to at least 1. *)
Lemma encoded_all_mass (S : Sorter) (x : row) :
  x <> [] ->
  1 <= Rsum (map (fun i => nth i (softmax_binary32 x) 0)
                 (argsort S (softmax_binary32 x))
             ++ map INR (argsort S (softmax_binary32 x))).
Proof.
  intros Hx. set (p := softmax_binary32 x). rewrite Rsum_app.
  assert (Hperm : Permutation (argsort S p) (seq 0 (length x))).
  { rewrite <- (softmax_binary32_length x). apply argsort_perm. }
  assert (Hvals : 0 <= Rsum (map (fun i => nth i p 0) (argsort S p))).
  { rewrite (Rsum_perm _ _ (Permutation_map _ (argsort_perm S p))).
    rewrite <- list_by_positions. apply Rsum_nonneg.
    apply softmax_binary32_nonneg. }
  assert (Hids : Forall (fun v => 0 <= v) (map INR (argsort S p))).
  { apply Forall_map, Forall_forall. intros i _. apply pos_INR. }
  destruct x as [|a [|b x]]; [congruence| |].
  - unfold p in *. rewrite softmax_binary32_single in *.
    rewrite (Rsum_perm _ _ (Permutation_map _ (argsort_perm S [1]))).
    simpl. pose proof (Rsum_nonneg _ Hids). lra.
  - assert (H1 : INR 1 <= Rsum (map INR (argsort S p))).
    { apply Rsum_ge_member; [exact Hids|]. apply in_map.
      eapply Permutation_in; [symmetry; exact Hperm|].
      apply in_seq. simpl. lia. }
    simpl in H1. lra.
Qed.

Lemma decode_row_binary32_oversized (V k : nat) (e : row) :
  (length e <= k)%nat -> (V < k)%nat -> 1 <= Rsum e ->
  decode_row_with (underflow 1e-64) V (Z.of_nat k) e
  = Returned (repeat NInf V).
Proof.
  intros He Hk Hs. rewrite underflow_literal. unfold decode_row_with.
  rewrite slice_to_nonneg, slice_from_nonneg.
  rewrite firstn_all2, skipn_all2 by assumption.
  cbn [map scatter_row]. rewrite ones_scaled. f_equal. f_equal.
  unfold remainder_floor_with, div_int.
  destruct (Z.eqb_spec (Z.of_nat V - Z.of_nat k) 0); [lia|].
  rewrite clamp_at_zero by lra.
  replace (0 / IZR (Z.of_nat V - Z.of_nat k)) with 0 by (unfold Rdiv; ring).
  apply xlog_zero.
Qed.

(** X4: on binary32 tensors a [topk] of at least twice the vocabulary size
    fails nowhere: the encoder returns all [V] pairs, the decoder takes the
    whole position for values, whose sum is at least 1, finds no index to
    write, and returns rows that are [-inf] throughout. *)
Theorem oversized_k_decodes_neg_inf (S : Sorter) (t : tensor3 R) (V k : nat) :
  last_dim V t -> (1 <= V)%nat -> (2 * V <= k)%nat ->
  exists enc dec,
    encode_binary32 S t (Z.of_nat k) = Returned enc
    /\ last_dim (2 * V) enc
    /\ decode_binary32 enc V (Z.of_nat k) = Returned dec
    /\ Forall2 (Forall2 (fun (_ : row) out => out = repeat NInf V)) t dec.
Proof.
  intros Ht HV Hk.
  set (enc_row := encode_row_with softmax_binary32 S (Z.of_nat k)).
  assert (Hrow : forall b x, In b t -> In x b ->
            length (enc_row x) = (2 * V)%nat
            /\ decode_row_with (underflow 1e-64) V (Z.of_nat k) (enc_row x)
               = Returned (repeat NInf V)).
  { intros b x Hb Hx. pose proof (last_dim_In V t b x Ht Hb Hx) as Hl.
    assert (Hnil : x <> []) by (intros ->; simpl in Hl; lia).
    unfold enc_row. rewrite encode_row_with_all
      by (rewrite softmax_binary32_length; lia).
    assert (Hlen : length (map (fun i => nth i (softmax_binary32 x) 0)
                               (argsort S (softmax_binary32 x))
                           ++ map INR (argsort S (softmax_binary32 x)))
                   = (2 * V)%nat).
    { rewrite length_app, !length_map, argsort_length,
        softmax_binary32_length. lia. }
    split; [exact Hlen|].
    apply decode_row_binary32_oversized; [lia|lia|].
    now apply encoded_all_mass. }
  assert (H : exists dec,
             mapM (fun b => mapM (fun x => decode_row_with (underflow 1e-64) V
                                             (Z.of_nat k) (enc_row x)) b) t
             = Returned dec
             /\ Forall2 (Forall2 (fun (_ : row) out => out = repeat NInf V))
                        t dec).
  { apply mapM_Forall2, Forall_forall. intros b Hb.
    apply mapM_Forall2, Forall_forall. intros x Hx.
    destruct (Hrow b x Hb Hx) as [_ Hd]. eexists. split; [exact Hd|reflexivity]. }
  destruct H as (dec & Hdec & HP).
  exists (map (map enc_row) t), dec.
  split; [apply encode_with_by_rows|]. split.
  { apply Forall_map, Forall_forall. intros b Hb.
    apply Forall_map, Forall_forall. intros x Hx. now apply (Hrow b). }
  split; [|exact HP].
  unfold decode_binary32. rewrite decode_with_by_rows, mapM_map.
  etransitivity; [|exact Hdec]. apply mapM_ext. intros b. apply mapM_map.
Qed.

Lemma oversized_k_decodes_neg_inf_witness :
  exists enc dec,
    encode_binary32 insertion_sorter [[[0; 1]]] (Z.of_nat 4) = Returned enc
    /\ last_dim (2 * 2) enc
    /\ decode_binary32 enc 2 (Z.of_nat 4) = Returned dec
    /\ Forall2 (Forall2 (fun (_ : row) out => out = repeat NInf 2))
               [[[0; 1]]] dec.
Proof.
  apply (oversized_k_decodes_neg_inf insertion_sorter [[[0; 1]]] 2 4).
  - repeat constructor.
  - lia.
  - lia.
Defined.

(** ** When the decoder raises *)

Lemma scatter_row_too_many (out : list xreal) (index : list Z)
    (src : list xreal) :
  (length src < length index)%nat ->
  exists e, scatter_row out index src = Raised e.
Proof.
  revert out src. induction index as [|i index IH]; intros out src H;
    simpl in H; [lia|].
  destruct src as [|s src]; simpl; [now eexists|].
  destruct ((0 <=? i)%Z && (i <? Z.of_nat (length out))%Z)%bool;
    [|now eexists].
  apply IH. simpl in H. lia.
Qed.

Lemma scatter_row_out_of_range (out : list xreal) (idx : list nat)
    (src : list xreal) :
  (length idx <= length src)%nat ->
  Exists (fun i => (length out <= i)%nat) idx ->
  scatter_row out (map Z.of_nat idx) src = Raised IndexOutOfBounds.
Proof.
  intros Hl Hex. revert out src Hl Hex.
  induction idx as [|i idx IH]; intros out src Hl Hex;
    [inversion Hex|].
  destruct src as [|s src]; simpl in Hl; [lia|]. simpl.
  destruct (Z.leb_spec 0 (Z.of_nat i)); [|lia].
  destruct (Z.ltb_spec (Z.of_nat i) (Z.of_nat (length out))) as [Hin|Hout];
    simpl; [|reflexivity].
  rewrite Nat2Z.id. apply IH; [lia|].
  rewrite update_length. inversion Hex; subst; [lia|assumption].
Qed.

(** X5: decoding with a [topk] smaller than the one the position was
    encoded with raises: the decoder then reads more indices than values, and
    [scatter_] refuses an index longer than its source. *)
Theorem decode_smaller_k_raises (S : Sorter) (t : tensor3 R)
    (V k_enc k_dec : nat) :
  last_dim V t -> (k_dec < k_enc <= V)%nat ->
  (exists b x, In b t /\ In x b) ->
  exists enc e,
    encode_forward_response_tensor S t (Z.of_nat k_enc) = Returned enc
    /\ decode_forward_response_tensor enc V (Z.of_nat k_dec) = Raised e.
Proof.
  intros Ht Hk (b & x & Hb & Hx).
  exists (map (map (encode_row S (Z.of_nat k_enc))) t).
  assert (He : exists e, decode_row V (Z.of_nat k_dec)
                           (encode_row S (Z.of_nat k_enc) x) = Raised e).
  { pose proof (last_dim_In V t b x Ht Hb Hx) as HV.
    assert (Hl : length (encode_row S (Z.of_nat k_enc) x) = (2 * k_enc)%nat).
    { rewrite encode_row_length. unfold kept_count.
      destruct (Z.leb_spec 0 (Z.of_nat k_enc)); lia. }
    unfold decode_row. apply scatter_row_too_many.
    rewrite !length_map, slice_to_nonneg, slice_from_nonneg.
    rewrite length_firstn, length_skipn, Hl. lia. }
  destruct He as (e & He).
  destruct (decode_raises_at (map (map (encode_row S (Z.of_nat k_enc))) t)
              V (Z.of_nat k_dec) (map (encode_row S (Z.of_nat k_enc)) b)
              (encode_row S (Z.of_nat k_enc) x) e) as (e' & He');
    [now apply in_map|now apply in_map|exact He|].
  exists e'. split; [apply encode_by_rows|exact He'].
Qed.

Lemma decode_smaller_k_raises_witness :
  exists enc e,
    encode_forward_response_tensor insertion_sorter [[[0; 1; 2]]] (Z.of_nat 2)
    = Returned enc
    /\ decode_forward_response_tensor enc 3 (Z.of_nat 1) = Raised e.
Proof.
  apply (decode_smaller_k_raises insertion_sorter [[[0; 1; 2]]] 3 2 1).
  - repeat constructor.
  - lia.
  - exists [[0; 1; 2]], [0; 1; 2]. split; now left.
Defined.

(** X6: the decoder raises an index error as soon as one encoded id is not
    below the [vocab_size] it is given; no entry is dropped silently. *)
Theorem decode_small_vocab_raises (V k : nat) (vs : row) (idx : list nat) :
  length vs = k -> length idx = k ->
  Exists (fun i => (V <= i)%nat) idx ->
  decode_forward_response_tensor [[vs ++ map INR idx]] V (Z.of_nat k)
  = Raised IndexOutOfBounds.
Proof.
  intros Hv Hi Hex. rewrite decode_by_rows. cbn [mapM].
  unfold decode_row. subst k.
  rewrite slice_to_app_exact at 1. rewrite slice_to_app_exact.
  rewrite slice_from_app_exact, map_to_long_INR, ones_scaled.
  rewrite scatter_row_out_of_range; [reflexivity| |].
  - rewrite length_map. lia.
  - now rewrite repeat_length.
Qed.

Lemma decode_small_vocab_raises_witness :
  decode_forward_response_tensor [[[1 / 2; 1 / 4] ++ map INR [0; 5]%nat]] 3
                                 (Z.of_nat 2)
  = Raised IndexOutOfBounds.
Proof.
  apply (decode_small_vocab_raises 3 2 [1 / 2; 1 / 4] [0; 5]%nat).
  - reflexivity.
  - reflexivity.
  - apply Exists_cons_tl, Exists_cons_hd. lia.
Defined.

(** * The next-token loss *)

Module Loss.

(** ** [nn.CrossEntropyLoss()]

    The library criterion is taken through its contract, with its default
    arguments: the input is a list of rows of logits, the target a list of
    class ids of the same length; a target of [-100] is ignored, any other
    target outside the row raises, and the result is the mean of
    [log (sum (exp row)) - row[target]] over the targets that are not
    ignored, which is NaN when there are none. *)
Definition ignore_index : Z := -100.

Definition nll_row (x : row) (target : Z) : outcome (option R) :=
  if (target =? ignore_index)%Z then Returned None
  else if ((0 <=? target)%Z && (target <? Z.of_nat (length x))%Z)%bool
       then Returned (Some (ln (Rsum (map exp x))
                            - nth (Z.to_nat target) x 0))
       else Raised IndexOutOfBounds.

Definition mean (l : list R) : xreal :=
  match l with
  | [] => NaN
  | _ => Fin (Rsum l / INR (length l))
  end.

Fixpoint somes {A : Type} (l : list (option A)) : list A :=
  match l with
  | [] => []
  | Some a :: l' => a :: somes l'
  | None :: l' => somes l'
  end.

Definition CrossEntropyLoss (input : list row) (target : list Z)
    : outcome xreal :=
  if Nat.eqb (length input) (length target)
  then losses <- mapM (fun p => nll_row (fst p) (snd p))
                      (combine input target) ;;
       Returned (mean (somes losses))
  else Raised ShapeMismatch.

(** [get_loss_fct(logits, labels)]: the logits of every position but the
    last are scored against the label of the position that follows. *)
Definition get_loss_fct (logits : tensor3 R) (labels : list (list Z))
    : outcome xreal :=
  let shift_logits := map (slice_to (-1)) logits in
  let shift_labels := map (slice_from 1) labels in
  CrossEntropyLoss (concat shift_logits) (concat shift_labels).

End Loss.

Import Loss.

Lemma concat_nils {A : Type} (l : list (list A)) :
  Forall (fun b => b = []) l -> concat l = [].
Proof.
  induction 1 as [|b l -> _ IH]; simpl; [reflexivity|exact IH].
Qed.

(** X7: when no sequence has more than one position there is nothing left to
    score after the shift, and the loss is NaN. *)
Theorem short_sequences_lose_nan (logits : tensor3 R) (labels : list (list Z)) :
  Forall (fun b => (length b <= 1)%nat) logits ->
  Forall (fun b => (length b <= 1)%nat) labels ->
  get_loss_fct logits labels = Returned NaN.
Proof.
  intros Hl Ht. unfold get_loss_fct.
  rewrite (concat_nils (map (slice_to (-1)) logits)).
  - rewrite (concat_nils (map (slice_from 1) labels)); [reflexivity|].
    apply Forall_map. eapply Forall_impl; [|exact Ht].
    intros b Hb. unfold slice_from. simpl.
    destruct b as [|a [|a' b]]; simpl in *; try reflexivity; lia.
  - apply Forall_map. eapply Forall_impl; [|exact Hl].
    intros b Hb. unfold slice_to. simpl.
    destruct b as [|a [|a' b]]; simpl in *; try reflexivity; lia.
Qed.

Lemma short_sequences_lose_nan_witness :
  get_loss_fct [[[1; 2]]; [[0; 3]]] [[0%Z]; [1%Z]] = Returned NaN.
Proof.
  apply short_sequences_lose_nan; repeat constructor.
Defined.

(** * The prompting validator: scoring and choosing responses *)

Module Validator.

(** [range(0, n, step)] *)
Definition py_range (n step : nat) : list nat :=
  map (fun j => (j * step)%nat) (seq 0 ((n + step - 1) / step)).

(** ["<|startoftext|>" + chosen + "<|endoftext|>"] *)
Definition wrap (chosen : string) : string :=
  String.append "<|startoftext|>" (String.append chosen "<|endoftext|>").

Definition batch_size : nat := 2.

(** The [sub_samples] of the successive iterations of [reward_fn]. *)
Definition sub_sample_batches (samples : list string) : list (list string) :=
  map (fun i => map wrap (firstn batch_size (skipn i samples)))
      (py_range (length samples) batch_size).

(** [torch.cat(scores_list, dim=0)]; an empty list of tensors raises. *)
Definition torch_cat (scores_list : list (list R)) : option (list R) :=
  match scores_list with
  | [] => None
  | _ => Some (concat scores_list)
  end.

(** [bool(response)]: [None] and the empty string are false. *)
Definition truthy (response : option string) : bool :=
  match response with
  | Some s => negb (String.eqb s "")
  | None => false
  end.

(** [reward > max_reward], with [max_reward] starting at [-math.inf]. *)
Definition exceeds (reward : R) (max_reward : xreal) : bool :=
  match max_reward with
  | NInf => true
  | Fin m => if Rlt_dec m reward then true else false
  | PInf => false
  | NaN => false
  end.

Section Neuron.

(** The tokenizer and the reward model of [self.reward_model] are not part
    of the sources.  [reward_model batch] stands for the
    ["chosen_end_scores"] they give for one batch of wrapped samples, padded
    to the fixed length and repeated. *)
Variable reward_model : list string -> list R.

(** [neuron.reward_fn(samples)]; [None] when it raises. *)
Definition reward_fn (samples : list string) : option (list R) :=
  let scores_list := map reward_model (sub_sample_batches samples) in
  torch_cat scores_list.

(** One iteration of the loop of [run] that looks for the best response;
    the state is [(max_reward, max_response)], [None] once a comparison has
    raised. *)
Definition consider (st : option (xreal * string)) (response : option string)
    : option (xreal * string) :=
  match st with
  | None => None
  | Some (max_reward, max_response) =>
      if truthy response
      then match reward_fn (match response with
                            | Some s => [s]
                            | None => []
                            end) with
           | Some [reward] =>
               if exceeds reward max_reward
               then Some (Fin reward,
                          match response with
                          | Some s => s
                          | None => max_response
                          end)
               else Some (max_reward, max_response)
           | _ => None
           end
      else Some (max_reward, max_response)
  end.

(** The loop over [enumerate(responses_per_uid)]. *)
Definition best_response (responses_per_uid : list (option string))
    : option (xreal * string) :=
  fold_left consider responses_per_uid (Some (NInf, EmptyString)).

End Neuron.

(** *** The batches of [reward_fn] *)

Lemma pair_induction {A : Type} (P : list A -> Prop) :
  P [] -> (forall a, P [a]) -> (forall a b l, P l -> P (a :: b :: l)) ->
  forall l, P l.
Proof.
  intros H0 H1 H2 l.
  assert (H : P l /\ forall a, P (a :: l)).
  { induction l as [|b l [IH1 IH2]]; [split; [exact H0|exact H1]|].
    split; [apply IH2|]. intros a. now apply H2. }
  apply H.
Qed.

Lemma py_range_two_step (n : nat) :
  py_range (Datatypes.S (Datatypes.S n)) 2
  = 0%nat :: map (fun i => Datatypes.S (Datatypes.S i)) (py_range n 2).
Proof.
  unfold py_range.
  replace (Datatypes.S (Datatypes.S n) + 2 - 1)%nat
    with ((n + 2 - 1) + 1 * 2)%nat by lia.
  rewrite Nat.div_add by lia. rewrite Nat.add_1_r. cbn [seq map].
  f_equal. rewrite <- seq_shift, !map_map. apply map_ext. intros j. lia.
Qed.

Lemma batches_two_step (a b : string) (l : list string) :
  sub_sample_batches (a :: b :: l)
  = [wrap a; wrap b] :: sub_sample_batches l.
Proof.
  unfold sub_sample_batches, batch_size. cbn [length].
  rewrite py_range_two_step. cbn [map skipn firstn]. f_equal.
  rewrite map_map. reflexivity.
Qed.

Lemma batches_concat (samples : list string) :
  concat (sub_sample_batches samples) = map wrap samples.
Proof.
  induction samples as [|a|a b l IH] using pair_induction;
    [reflexivity|reflexivity|].
  rewrite batches_two_step. cbn [concat map app]. now rewrite IH.
Qed.

Lemma batches_sizes (samples : list string) :
  Forall (fun b => (1 <= length b <= 2)%nat) (sub_sample_batches samples).
Proof.
  induction samples as [|a|a b l IH] using pair_induction.
  - constructor.
  - repeat constructor.
  - rewrite batches_two_step. constructor; [simpl; lia|exact IH].
Qed.

Lemma batches_count (samples : list string) :
  length (sub_sample_batches samples) = ((length samples + 1) / 2)%nat.
Proof.
  unfold sub_sample_batches, py_range, batch_size.
  rewrite !length_map, length_seq. f_equal. lia.
Qed.

Lemma batches_nonempty (samples : list string) :
  samples <> [] -> sub_sample_batches samples <> [].
Proof.
  destruct samples as [|a [|b l]]; [congruence|discriminate|].
  rewrite batches_two_step. discriminate.
Qed.

Lemma reward_fn_single (reward_model : list string -> list R) (s : string) :
  reward_fn reward_model [s] = Some (reward_model [wrap s] ++ []).
Proof. reflexivity. Qed.

(** *** The best response so far *)

Section Choice.

Variable reward_model : list string -> list R.
Variable score : string -> R.
Hypothesis one_score : forall s, reward_model [wrap s] = [score s].

(** What the loop has found after the responses [l]. *)
Definition found (l : list (option string)) (st : xreal * string) : Prop :=
  (Forall (fun r => truthy r = false) l
   /\ st = (NInf, EmptyString))
  \/ (exists pre post,
        l = pre ++ Some (snd st) :: post
        /\ truthy (Some (snd st)) = true
        /\ fst st = Fin (score (snd st))
        /\ (forall s, In (Some s) pre -> truthy (Some s) = true ->
                      score s < score (snd st))
        /\ (forall s, In (Some s) post -> truthy (Some s) = true ->
                      score s <= score (snd st))).

Lemma consider_found (l : list (option string)) (st : xreal * string)
    (r : option string) :
  found l st ->
  exists st', consider reward_model (Some st) r = Some st'
              /\ found (l ++ [r]) st'.
Proof.
  intros Hf. destruct st as [mr resp]. unfold consider.
  destruct (truthy r) eqn:Hr.
  - destruct r as [s|]; [|discriminate Hr].
    rewrite reward_fn_single, one_score. cbn [app].
    destruct Hf as [[Hall E]|(pre & post & El & Ht & Em & Hpre & Hpost)].
    + injection E as -> ->. cbn [exceeds]. eexists. split; [reflexivity|].
      right. exists l, []. cbn [fst snd].
      split; [reflexivity|]. split; [exact Hr|]. split; [reflexivity|].
      split; [|intros s' []].
      intros s' Hin Hs'. rewrite Forall_forall in Hall.
      specialize (Hall _ Hin). congruence.
    + cbn [fst snd] in *. subst mr. cbn [exceeds].
      destruct (Rlt_dec (score resp) (score s)) as [Hlt|Hge].
      * eexists. split; [reflexivity|]. right. exists l, []. cbn [fst snd].
        split; [reflexivity|]. split; [exact Hr|]. split; [reflexivity|].
        split; [|intros s' []].
        intros s' Hin Hs'. subst l.
        apply in_app_or in Hin as [Hin|[E|Hin]].
        -- specialize (Hpre s' Hin Hs'). lra.
        -- injection E as ->. exact Hlt.
        -- specialize (Hpost s' Hin Hs'). lra.
      * eexists. split; [reflexivity|]. right.
        exists pre, (post ++ [Some s]). cbn [fst snd].
        split; [subst l; now rewrite <- app_assoc|].
        split; [exact Ht|]. split; [reflexivity|]. split; [exact Hpre|].
        intros s' Hin Hs'. apply in_app_or in Hin as [Hin|[E|[]]].
        -- now apply Hpost.
        -- injection E as ->. lra.
  - eexists. split; [reflexivity|].
    destruct Hf as [[Hall E]|(pre & post & El & Ht & Em & Hpre & Hpost)].
    + left. split; [|exact E]. apply Forall_app. split; [exact Hall|].
      now constructor.
    + right. exists pre, (post ++ [r]).
      split; [subst l; now rewrite <- app_assoc|].
      split; [exact Ht|]. split; [exact Em|]. split; [exact Hpre|].
      intros s' Hin Hs'. apply in_app_or in Hin as [Hin|[E|[]]].
      * now apply Hpost.
      * subst r. congruence.
Qed.

Lemma best_response_found (responses : list (option string)) :
  exists st, best_response reward_model responses = Some st
             /\ found responses st.
Proof.
  unfold best_response.
  induction responses as [|r l IH] using rev_ind.
  - eexists. split; [reflexivity|]. left. split; [constructor|reflexivity].
  - destruct IH as (st & Hst & Hf). rewrite fold_left_app, Hst. cbn [fold_left].
    now apply consider_found.
Qed.

End Choice.

End Validator.

Import Validator.

(** X9: the batches [reward_fn] hands to the reward model are the wrapped
    samples in their order, two at a time: concatenated they give every sample
    once, each batch holds one or two samples, and there are
    [ceil (n / 2)] of them. *)
Theorem reward_batches_cover (samples : list string) :
  concat (sub_sample_batches samples) = map wrap samples
  /\ Forall (fun b => (1 <= length b <= 2)%nat) (sub_sample_batches samples)
  /\ length (sub_sample_batches samples) = ((length samples + 1) / 2)%nat.
Proof.
  split; [apply batches_concat|]. split; [apply batches_sizes|].
  apply batches_count.
Qed.

(** X10: when the reward model scores every sample of a batch on its own,
    [reward_fn] returns, for a non-empty list, the scores of the wrapped
    samples in the order of the samples, whatever the batching; for the empty
    list the concatenation of no scores raises. *)
Theorem reward_fn_scores_in_order (reward_model : list string -> list R)
    (score : string -> R) :
  (forall batch, reward_model batch = map score batch) ->
  reward_fn reward_model [] = None
  /\ forall samples, samples <> [] ->
       reward_fn reward_model samples
       = Some (map (fun s => score (wrap s)) samples).
Proof.
  intros H. split; [reflexivity|]. intros samples Hne.
  unfold reward_fn, torch_cat.
  pose proof (batches_nonempty samples Hne) as Hb.
  destruct (map reward_model (sub_sample_batches samples)) as [|c cs] eqn:E.
  - apply map_eq_nil in E. contradiction.
  - rewrite <- E. f_equal.
    rewrite (map_ext _ (map score) H), <- concat_map, batches_concat.
    apply map_map.
Qed.

Lemma reward_fn_scores_in_order_witness :
  reward_fn (map (fun s => INR (String.length s))) [] = None
  /\ forall samples, samples <> [] ->
       reward_fn (map (fun s => INR (String.length s))) samples
       = Some (map (fun s => INR (String.length (wrap s))) samples).
Proof.
  apply (reward_fn_scores_in_order (map (fun s => INR (String.length s)))
           (fun s => INR (String.length s))).
  reflexivity.
Defined.

(** X11: when the reward model gives one score for a single wrapped
    response, the loop of [run] ends with [max_reward = -inf] and the empty
    response if no response is non-empty; otherwise it ends with a non-empty
    response and its score, every non-empty response before it scoring
    strictly less and every non-empty response after it scoring no more: the
    first response of highest score wins, and empty or missing responses are
    never scored. *)
Theorem best_response_is_first_maximum
    (reward_model : list string -> list R) (score : string -> R)
    (responses : list (option string)) :
  (forall s, reward_model [wrap s] = [score s]) ->
  exists max_reward max_response,
    best_response reward_model responses = Some (max_reward, max_response)
    /\ ((Forall (fun r => truthy r = false) responses
         /\ max_reward = NInf /\ max_response = EmptyString)
        \/ (exists pre post,
              responses = pre ++ Some max_response :: post
              /\ truthy (Some max_response) = true
              /\ max_reward = Fin (score max_response)
              /\ (forall s, In (Some s) pre -> truthy (Some s) = true ->
                            score s < score max_response)
              /\ (forall s, In (Some s) post -> truthy (Some s) = true ->
                            score s <= score max_response))).
Proof.
  intros H.
  destruct (best_response_found reward_model score H responses)
    as ([mr resp] & Hb & Hf).
  exists mr, resp. split; [exact Hb|].
  destruct Hf as [[Hall E]|Hf].
  - left. injection E as -> ->. now split.
  - right. exact Hf.
Qed.

Lemma best_response_is_first_maximum_witness :
  exists max_reward max_response,
    best_response (map (fun s => INR (String.length s)))
      [None; Some "a"%string; Some EmptyString; Some "bb"%string]
    = Some (max_reward, max_response)
    /\ ((Forall (fun r => truthy r = false)
                [None; Some "a"%string; Some EmptyString; Some "bb"%string]
         /\ max_reward = NInf /\ max_response = EmptyString)
        \/ (exists pre post,
              [None; Some "a"%string; Some EmptyString; Some "bb"%string]
              = pre ++ Some max_response :: post
              /\ truthy (Some max_response) = true
              /\ max_reward = Fin (INR (String.length (wrap max_response)))
              /\ (forall s, In (Some s) pre -> truthy (Some s) = true ->
                            INR (String.length (wrap s))
                            < INR (String.length (wrap max_response)))
              /\ (forall s, In (Some s) post -> truthy (Some s) = true ->
                            INR (String.length (wrap s))
                            <= INR (String.length (wrap max_response))))).
Proof.
  apply (best_response_is_first_maximum
           (map (fun s => INR (String.length s)))
           (fun s => INR (String.length (wrap s)))).
  reflexivity.
Defined.
